(** * The Datastore request layer (datastore/request.js)

    A shallow embedding of [DatastoreRequest]: the five operations [get],
    [save], [delete], [runQuery], [allocateIds] and the dispatcher [makeReq_].

    The JavaScript is callback driven.  A request handed to [makeReq_] is
    written to the wire and its callback is parked until the reply arrives;
    nothing runs in between.  The embedding keeps that shape: the callbacks
    the source creates are first-order values ([Closure]), a world record
    holds what the program can change or observe, the operations are
    computations in a state-and-exception monad over the world, and an event
    loop ([deliver], [run]) hands replies to the parked callbacks. *)

From Stdlib Require Import ZArith Ascii String.
From stdpp Require Import gmap strings list sorting.

Set Warnings "-register-all".

Local Open Scope Z_scope.

(** ** External collaborators

    [entity.js], [pb.js], [query.js] and the byte buffers are not part of the
    request layer.  Their data is kept abstract ([Wire]) and their functions
    are taken as an interface ([Codec]). *)

Class Wire := {
  Value : Type;          (* a JavaScript value held by a data record *)
  Property : Type;       (* the wire form of a value *)
  Bag : Type;            (* a plain property bag *)
  EntityProto : Type;    (* what entityToEntityProto builds from a bag *)
  Path : Type;           (* the path held by a key object *)
  KeyProto : Type;
  EntityResult : Type;   (* an element of a decoded found / entity_result list *)
  Entity : Type;         (* a formatted entity *)
  Query : Type;
  QueryProto : Type;
  ByteBuffer : Type;
  TxId : Type;           (* a transaction identifier; [this.id] is [None] when unset *)
  Value_inhabited :: Inhabited Value;
  Path_inhabited :: Inhabited Path
}.

(** Locations of caller-owned objects: two references are the same object
    exactly when they are the same location. *)
Definition loc := nat.

(** Error objects.  An error argument is [None] when it is null, undefined
    or otherwise falsy. *)
Definition Err := string.

Inductive Exn :=
| TypeError
| Error (message : string).

Section Data.
Context {W : Wire}.

(** A key object.  Only [path] is written by this file. *)
Record Key := mkKey { namespace : option string; path : Path }.

Definition set_path (p : Path) (k : Key) : Key :=
  {| namespace := namespace k; path := p |}.

(** The [value] field of a data record holds the caller's value until [save]
    replaces it by its wire form. *)
Inductive FieldValue :=
| Raw (v : Value)
| Converted (p : Property).

(** A record [{name, value, excludeFromIndexes}] of an explicit data list.
    [excludeFromIndexes] is absent, a boolean, or some other value. *)
Record DataRec := mkDataRec {
  name : string;
  value : FieldValue;
  excludeFromIndexes : option (bool + Value)
}.

(** [entityObject.data] is an array of records or a plain bag. *)
Inductive Data :=
| DataList (records : list loc)
| DataBag (bag : Bag).

(** An entity descriptor [{key, data}]; the key is a reference to the
    caller's key object. *)
Record Descriptor := mkDescriptor { d_key : loc; d_data : Data }.

(** [ent] in [save]: either [{property: [...]}] over the caller's records,
    or the result of entityToEntityProto; then [ent.key] is set. *)
Inductive EntBody :=
| PropertyList (records : list loc)
| FromBag (e : EntityProto).

Record Ent := mkEnt { ent_body : EntBody; ent_key : KeyProto }.

Record Mutation := mkMutation {
  upsert : option (list Ent);
  insert_auto_id : option (list Ent);
  delete : option (list KeyProto)
}.

Record ReadOptions := mkReadOptions { ro_transaction : option TxId }.

Definition set_ro_transaction (t : TxId) (ro : ReadOptions) : ReadOptions :=
  {| ro_transaction := Some t |}.

(** The request body, a JavaScript object: every field may be absent. *)
Record Body := mkBody {
  b_key : option (list KeyProto);
  b_mutation : option Mutation;
  b_read_options : option ReadOptions;
  b_query : option QueryProto;
  b_partition_id : option string;
  b_mode : option string;
  b_transaction : option TxId
}.

Definition emptyBody : Body :=
  mkBody None None None None None None None.

(** The decoded response object. *)
Record MutationResult := mkMutationResult {
  insert_auto_id_key : option (list KeyProto)
}.

Record Batch := mkBatch {
  entity_result : list EntityResult;
  end_cursor : option ByteBuffer
}.

Record Resp := mkResp {
  found : list EntityResult;
  deferred : option (list KeyProto);
  mutation_result : option MutationResult;
  batch : option Batch;
  r_key : option (list KeyProto)
}.

(** The values that callbacks receive after the error argument. *)
Inductive Val :=
| VUndefined
| VString (s : string)
| VEntity (e : Entity)
| VKey (k : Key)
| VArray (elements : list Val)
| VResp (r : Resp).

(** The functions this file creates and passes around, with what each one
    captures.  [UserFn f] is a function supplied by the caller, known by its
    name [f]; calling it is recorded in the trace. *)
Inductive Closure :=
| UserFn (f : nat)
| Noop                                   (* util.noop *)
| NotCallable                            (* an object standing where a function is expected *)
| GetCb (isMultipleRequest : bool) (callback : Closure)
| GetMoreCb (found : list Val) (callback : Closure)
| OnCommit (entities : list Descriptor) (insertIndexes : list nat)
           (callback : option Closure)
| RunQueryFn (q : Query) (req : Body) (resultsToSend : Z)
             (callback : option Closure)
| QueryCb (q : Query) (req : Body) (resultsToSend : Z)
          (callback : option Closure)
| AllocCb (callback : option Closure).

(** What [makeReq_] writes to the wire. *)
Record Request := mkRequest {
  http_method : string;
  host : string;
  http_path : string;
  content_type : string;
  message : string;       (* name of the protobuf request message *)
  req_body : Body
}.

(** What an observer sees: calls of the caller's functions and the events
    of the query stream, oldest first. *)
Inductive Event :=
| Called (f : nat) (err : option Err) (args : list Val)
| Push (e : Entity)
| StreamError (err : Err)
| StreamEnd.

(** The world.  The caller's key objects and data records live in two
    heaps; a reference held by a descriptor always points to an object, so
    the operations read the heaps with the total lookup. *)
Record World := mkWorld {
  id : option TxId;                   (* this.id *)
  projectId : string;                 (* this.projectId *)
  requests_ : list Body;              (* this.requests_ *)
  requestCallbacks_ : list Closure;   (* this.requestCallbacks_ *)
  keys : gmap loc Key;                (* the caller's key objects *)
  recs : gmap loc DataRec;            (* the caller's data records *)
  sent : list Request;                (* requests written, oldest first *)
  inflight : list Closure;            (* callbacks awaiting a reply, oldest first *)
  readers : list Closure;             (* once('reading') listeners of the stream *)
  trace : list Event
}.

Definition set_requests_ (f : list Body → list Body) (w : World) : World :=
  mkWorld (id w) (projectId w) (f (requests_ w)) (requestCallbacks_ w)
          (keys w) (recs w) (sent w) (inflight w) (readers w) (trace w).
Definition set_requestCallbacks_ (f : list Closure → list Closure) (w : World) : World :=
  mkWorld (id w) (projectId w) (requests_ w) (f (requestCallbacks_ w))
          (keys w) (recs w) (sent w) (inflight w) (readers w) (trace w).
Definition set_keys (f : gmap loc Key → gmap loc Key) (w : World) : World :=
  mkWorld (id w) (projectId w) (requests_ w) (requestCallbacks_ w)
          (f (keys w)) (recs w) (sent w) (inflight w) (readers w) (trace w).
Definition set_recs (f : gmap loc DataRec → gmap loc DataRec) (w : World) : World :=
  mkWorld (id w) (projectId w) (requests_ w) (requestCallbacks_ w)
          (keys w) (f (recs w)) (sent w) (inflight w) (readers w) (trace w).
Definition set_sent (f : list Request → list Request) (w : World) : World :=
  mkWorld (id w) (projectId w) (requests_ w) (requestCallbacks_ w)
          (keys w) (recs w) (f (sent w)) (inflight w) (readers w) (trace w).
Definition set_inflight (f : list Closure → list Closure) (w : World) : World :=
  mkWorld (id w) (projectId w) (requests_ w) (requestCallbacks_ w)
          (keys w) (recs w) (sent w) (f (inflight w)) (readers w) (trace w).
Definition set_readers (f : list Closure → list Closure) (w : World) : World :=
  mkWorld (id w) (projectId w) (requests_ w) (requestCallbacks_ w)
          (keys w) (recs w) (sent w) (inflight w) (f (readers w)) (trace w).
Definition set_trace (f : list Event → list Event) (w : World) : World :=
  mkWorld (id w) (projectId w) (requests_ w) (requestCallbacks_ w)
          (keys w) (recs w) (sent w) (inflight w) (readers w) (f (trace w)).

#[global] Instance Key_inhabited : Inhabited Key :=
  populate (mkKey None inhabitant).
#[global] Instance DataRec_inhabited : Inhabited DataRec :=
  populate (mkDataRec "" (Raw inhabitant) None).

(** ** The monad: a world in, a result or an exception and a world out *)

Inductive Res (A : Type) :=
| Ok (a : A)
| Throw (e : Exn).
#[global] Arguments Ok {A} a.
#[global] Arguments Throw {A} e.

Definition M (A : Type) : Type := World → Res A * World.

#[global] Instance M_ret : MRet M := λ A a w, (Ok a, w).
#[global] Instance M_bind : MBind M := λ A B f m w,
  match m w with
  | (Ok a, w') => f a w'
  | (Throw e, w') => (Throw e, w')
  end.

Definition throw {A} (e : Exn) : M A := λ w, (Throw e, w).
Definition gets {A} (f : World → A) : M A := λ w, (Ok (f w), w).
Definition modify (f : World → World) : M unit := λ w, (Ok tt, f w).

Definition emit (e : Event) : M unit :=
  modify (set_trace (λ t, t ++ [e])).

End Data.

(** The functions of [entity.js], [query.js] and the buffer library used by
    the request layer. *)
Class Codec {W : Wire} := {
  keyToKeyProto : Key → KeyProto;
  keyFromKeyProto : KeyProto → Key;
  isKeyComplete : Key → bool;
  entityToEntityProto : Bag → EntityProto;
  valueToProperty : FieldValue → Property;
  set_indexed : bool → Property → Property;   (* property.indexed = b *)
  formatArray : list EntityResult → list Entity;
  queryToQueryProto : Query → QueryProto;
  limitVal : Query → Z;                       (* q.limitVal *)
  q_namespace : Query → option string;        (* q.namespace *)
  start : Query → string → Query;             (* q.start(cursor) *)
  offset : Query → Z → Query;                 (* q.offset(n) *)
  toBase64 : ByteBuffer → string
}.

Definition GOOGLE_APIS_HOST : string := "www.googleapis.com".
Definition MODE_NON_TRANSACTIONAL : string := "NON_TRANSACTIONAL".
Definition MODE_TRANSACTIONAL : string := "TRANSACTIONAL".

(** [c.toUpperCase()] on one character. *)
Definition toUpperCase (c : ascii) : ascii :=
  let n := nat_of_ascii c in
  if ((97 <=? n) && (n <=? 122))%nat then ascii_of_nat (n - 32) else c.

Section Request.
Context {W : Wire} {C : Codec}.

(** ** makeReq_ (lines 509-573)

    The operations of this file always pass a body object as the second
    argument.  When the third argument is missing the source takes the
    second one for the callback and sends an empty body; the body object
    then stands where a function is expected (it is truthy, so
    [callback || util.noop] keeps it).  The request is encoded and written,
    and the callback waits for the reply: it is never called from within
    [makeReq_]. *)
Definition makeReq_ (method : string) (body : Body)
    (callback : option Closure) : M unit :=
  let '(body, callback) :=
    match callback with
    | Some cb => (body, cb)
    | None => (emptyBody, NotCallable)
    end in
  this_id ← gets id;
  let body :=
    if bool_decide (method = "commit") then
      match this_id with
      | Some t =>
          mkBody (b_key body) (b_mutation body) (b_read_options body)
                 (b_query body) (b_partition_id body)
                 (Some MODE_TRANSACTIONAL) (Some t)
      | None =>
          mkBody (b_key body) (b_mutation body) (b_read_options body)
                 (b_query body) (b_partition_id body)
                 (Some MODE_NON_TRANSACTIONAL) (b_transaction body)
      end
    else body in
  let body :=
    match this_id with
    | Some t =>
        if bool_decide (method = "lookup") then
          let read_options :=
            default (mkReadOptions None) (b_read_options body) in
          mkBody (b_key body) (b_mutation body)
                 (Some (set_ro_transaction t read_options))
                 (b_query body) (b_partition_id body)
                 (b_mode body) (b_transaction body)
        else body
    | None => body
    end in
  pbKey ← match method with
          | EmptyString => throw TypeError       (* method[0] is undefined *)
          | String c rest => mret (String (toUpperCase c) rest)
          end;
  project ← gets projectId;
  let reqOpts :=
    mkRequest "POST" GOOGLE_APIS_HOST
              ("/datastore/v1beta2/datasets/" +:+ project +:+ "/" +:+ method)
              "application/x-protobuf"
              (pbKey +:+ "Request") body in
  modify (set_sent (λ l, l ++ [reqOpts])) ;;
  modify (set_inflight (λ l, l ++ [callback])).

(** What the network hands to the callback of the oldest request in flight:
    [callback(err)] from the authorisation step, the socket or the status
    check, or [callback(null, pbResponse.decode(buffer))]. *)
Inductive Reply :=
| Failed (err : Err)
| Decoded (resp : Resp).

(** A key argument, or an entity argument: one object or an array. *)
Inductive OneOrMany (A : Type) :=
| One (x : A)
| Many (xs : list A).
#[global] Arguments One {A} x.
#[global] Arguments Many {A} xs.

Definition isArray {A} (x : OneOrMany A) : bool :=
  match x with One _ => false | Many _ => true end.

Definition toArray {A} (x : OneOrMany A) : list A :=
  match x with One a => [a] | Many l => l end.

(** ** get (lines 107-148), up to the dispatch *)
Definition get (keys : OneOrMany Key) (callback : option Closure) : M unit :=
  let isMultipleRequest := isArray keys in
  let keys := toArray keys in
  let callback := default Noop callback in
  let req :=
    mkBody (Some (keyToKeyProto <$> keys)) None None None None None None in
  makeReq_ "lookup" req (Some (GetCb isMultipleRequest callback)).

(** ** save (lines 228-291), up to the dispatch *)

(** The callback of [entityObject.data.map] (lines 239-248): what it makes
    of the record it is given. *)
Definition convertData (data : DataRec) : DataRec :=
  let v := valueToProperty (value data) in
  match excludeFromIndexes data with
  | Some (inl b) =>                            (* util.is(..., 'boolean') *)
      mkDataRec (name data) (Converted (set_indexed (negb b) v)) None
  | other => mkDataRec (name data) (Converted v) other
  end.

(** The record is the caller's object: it is rewritten in place and
    returned. *)
Definition convertRecord (l : loc) : M loc :=
  modify (set_recs (λ R, <[l := convertData (R !!! l)]> R)) ;;
  mret l.

Fixpoint convertRecords (ls : list loc) : M (list loc) :=
  match ls with
  | [] => mret []
  | l :: ls =>
      r ← convertRecord l;
      rs ← convertRecords ls;
      mret (r :: rs)
  end.

Definition buildEnt (entityObject : Descriptor) : M Ent :=
  ent ← match d_data entityObject with
        | DataList records =>
            property ← convertRecords records;
            mret (PropertyList property)
        | DataBag bag => mret (FromBag (entityToEntityProto bag))
        end;
  k ← gets (λ w, keys w !!! d_key entityObject);
  mret (mkEnt ent (keyToKeyProto k)).

(** The accumulator of [entities.reduce]: the two batches, and the closed-over
    [insertIndexes]. *)
Record Acc := mkAcc {
  acc_upsert : list Ent;
  acc_insert_auto_id : list Ent;
  acc_insertIndexes : list nat
}.

Fixpoint save_reduce (entities : list Descriptor) (index : nat) (acc : Acc)
    : M Acc :=
  match entities with
  | [] => mret acc
  | entityObject :: rest =>
      ent ← buildEnt entityObject;
      k ← gets (λ w, keys w !!! d_key entityObject);
      let acc :=
        if isKeyComplete k then
          mkAcc (acc_upsert acc ++ [ent]) (acc_insert_auto_id acc)
                (acc_insertIndexes acc)
        else
          mkAcc (acc_upsert acc) (acc_insert_auto_id acc ++ [ent])
                (acc_insertIndexes acc ++ [index]) in
      save_reduce rest (S index) acc
  end.

Definition save_req (acc : Acc) : Body :=
  mkBody None
         (Some (mkMutation (Some (acc_upsert acc))
                           (Some (acc_insert_auto_id acc)) None))
         None None None None None.

Definition save (entities : OneOrMany Descriptor)
    (callback : option Closure) : M unit :=
  let entities := toArray entities in
  acc ← save_reduce entities 0%nat (mkAcc [] [] []);
  let req := save_req acc in
  let onCommit := OnCommit entities (acc_insertIndexes acc) callback in
  this_id ← gets id;
  match this_id with
  | Some _ =>
      modify (set_requests_ (λ l, l ++ [req])) ;;
      modify (set_requestCallbacks_ (λ l, l ++ [onCommit]))
  | None => makeReq_ "commit" req (Some onCommit)
  end.

(** ** delete (lines 309-327) *)
Definition delete_req (keys : list Key) : Body :=
  mkBody None
         (Some (mkMutation None None (Some (keyToKeyProto <$> keys))))
         None None None None None.

Definition delete_ (keys : OneOrMany Key) (callback : option Closure)
    : M unit :=
  let keys := toArray keys in
  let callback := default Noop callback in
  let req := delete_req keys in
  this_id ← gets id;
  match this_id with
  | Some _ => modify (set_requests_ (λ l, l ++ [req]))
  | None => makeReq_ "commit" req (Some callback)
  end.

(** ** allocateIds (lines 465-489), up to the dispatch.  The loop
    [for (i = 0; i < n; i++)] pushes one encoded key per turn. *)
Definition allocateIds (incompleteKey : Key) (n : Z)
    (callback : option Closure) : M unit :=
  if isKeyComplete incompleteKey then
    throw (Error "An incomplete key should be provided.")
  else
    let incompleteKeys :=
      replicate (Z.to_nat n) (keyToKeyProto incompleteKey) in
    let req := mkBody (Some incompleteKeys) None None None None None None in
    makeReq_ "allocateIds" req (Some (AllocCb callback)).

(** ** runQuery (lines 368-436) *)

(** [util.is(callback, 'function')] *)
Definition is_function (callback : option Closure) : bool :=
  match callback with
  | None | Some NotCallable => false
  | Some _ => true
  end.

(** The inner function [runQuery()].  [callback] is [None] in streaming
    mode, where [stream] is set instead. *)
Definition runQuery_ (q : Query) (req : Body) (resultsToSend : Z)
    (callback : option Closure) : M unit :=
  makeReq_ "runQuery" req (Some (QueryCb q req resultsToSend callback)).

Definition runQuery (q : Query) (callback : option Closure) : M unit :=
  let resultsToSend := limitVal q in
  let partition_id :=
    match q_namespace q with
    | Some ns => if bool_decide (ns = "") then None else Some ns
    | None => None
    end in
  let req :=
    mkBody None None (Some (mkReadOptions None))
           (Some (queryToQueryProto q)) partition_id None None in
  if is_function callback then runQuery_ q req resultsToSend callback
  else
    (* stream.once('reading', runQuery); return stream *)
    modify (set_readers (λ l, l ++ [RunQueryFn q req resultsToSend None])).

(** [while ((result = entities.shift()) && resultsToSend !== 0)]; the
    entities are objects, so [result] is falsy only when the array is
    empty.  Returns the budget left. *)
Fixpoint pushResults (entities : list Entity) (resultsToSend : Z) : M Z :=
  match entities with
  | [] => mret resultsToSend
  | result :: entities =>
      if resultsToSend =? 0 then mret resultsToSend
      else emit (Push result) ;; pushResults entities (resultsToSend - 1)
  end.

(** ** The callbacks *)

Definition truthy (v : Val) : bool :=
  match v with
  | VUndefined => false
  | VString s => negb (bool_decide (s = ""))
  | _ => true
  end.

(** [resp.field] for the response argument of a dispatcher callback: a
    missing response makes the access a TypeError. *)
Definition as_resp (args : list Val) : M Resp :=
  match args with
  | VResp r :: _ => mret r
  | _ => throw TypeError
  end.

(** [found.concat(entities)] *)
Definition arrayConcat (found : list Val) (entities : Val) : list Val :=
  match entities with
  | VArray l => found ++ l
  | v => found ++ [v]
  end.

(** [resp.deferred && resp.deferred.length] *)
Definition has_length {A} (l : option (list A)) : bool :=
  match l with
  | Some (_ :: _) => true
  | _ => false
  end.

(** The [forEach] of [onCommit] (lines 284-287). *)
Fixpoint reconcile (entities : list Descriptor) (insertIndexes : list nat)
    (autoInserted : list KeyProto) (index : nat) : M unit :=
  match autoInserted with
  | [] => mret tt
  | key :: rest =>
      let path := path (keyFromKeyProto key) in
      match insertIndexes !! index with
      | None => throw TypeError              (* entities[undefined].key *)
      | Some i =>
          match entities !! i with
          | None => throw TypeError
          | Some entityObject =>
              let l := d_key entityObject in
              modify (set_keys (λ K, <[l := set_path path (K !!! l)]> K)) ;;
              reconcile entities insertIndexes rest (S index)
          end
      end
  end.

(** [apply c err args] is the call [c(err, ...args)]. *)
Fixpoint apply (c : Closure) (err : option Err) (args : list Val)
    {struct c} : M unit :=
  match c with
  | UserFn f => emit (Called f err args)
  | Noop => mret tt
  | NotCallable => throw TypeError
  | GetCb isMultipleRequest callback =>               (* lines 119-147 *)
      match err with
      | Some e => apply callback (Some e) []
      | None =>
          resp ← as_resp args;
          let found := VEntity <$> formatArray (found resp) in
          if isMultipleRequest && has_length (deferred resp) then
            get (Many (keyFromKeyProto <$> default [] (deferred resp)))
                (Some (GetMoreCb found callback))
          else
            apply callback None
                  [if isMultipleRequest then VArray found
                   else hd VUndefined found]
      end
  | GetMoreCb found callback =>                       (* lines 130-141 *)
      match err with
      | Some e => apply callback (Some e) []
      | None =>
          let found := arrayConcat found (hd VUndefined args) in
          apply callback None [VArray found]
      end
  | OnCommit entities insertIndexes callback =>       (* lines 277-290 *)
      let resp := hd VUndefined args in
      if bool_decide (is_Some err) || negb (truthy resp) then
        match callback with
        | Some cb => apply cb err []
        | None => throw TypeError
        end
      else
        r ← as_resp args;
        mr ← match mutation_result r with
             | Some mr => mret mr
             | None => throw TypeError
             end;
        let autoInserted := default [] (insert_auto_id_key mr) in
        reconcile entities insertIndexes autoInserted 0%nat ;;
        match callback with
        | Some cb => apply cb None []
        | None => throw TypeError
        end
  | RunQueryFn q req resultsToSend callback =>
      runQuery_ q req resultsToSend callback
  | QueryCb q req resultsToSend callback =>           (* lines 393-434 *)
      match err with
      | Some e =>
          match callback with
          | None => emit (StreamError e) ;; emit StreamEnd
          | Some cb => apply cb (Some e) []
          end
      | None =>
          resp ← as_resp args;
          b ← match batch resp with
              | Some b => mret b
              | None => throw TypeError
              end;
          let entities := formatArray (entity_result b) in
          let cursor :=
            match end_cursor b with
            | Some c => toBase64 c
            | None => ""
            end in
          match callback with
          | Some cb =>
              apply cb None [VArray (VEntity <$> entities); VString cursor]
          | None =>
              if bool_decide (cursor = "")
                 || bool_decide (length entities = 0%nat) then
                emit StreamEnd
              else
                resultsToSend ← pushResults entities resultsToSend;
                if resultsToSend =? 0 then emit StreamEnd
                else
                  let req :=
                    mkBody (b_key req) (b_mutation req) (b_read_options req)
                           (Some (queryToQueryProto (offset (start q cursor) 0)))
                           (b_partition_id req) (b_mode req)
                           (b_transaction req) in
                  runQuery_ q req resultsToSend None
          end
      end
  | AllocCb callback =>                               (* lines 479-488 *)
      match err with
      | Some e =>
          match callback with
          | Some cb => apply cb (Some e) []
          | None => throw TypeError
          end
      | None =>
          resp ← as_resp args;
          let keys := keyFromKeyProto <$> default [] (r_key resp) in
          match callback with
          | Some cb => apply cb None [VArray (VKey <$> keys)]
          | None => throw TypeError
          end
      end
  end.

(** ** The event loop *)

(** The reply to the oldest request in flight arrives. *)
Definition deliver (r : Reply) : M unit :=
  waiting ← gets inflight;
  match waiting with
  | [] => mret tt
  | c :: rest =>
      modify (set_inflight (λ _, rest)) ;;
      match r with
      | Failed e => apply c (Some e) []
      | Decoded resp => apply c None [VResp resp]
      end
  end.

(** Replies arrive one after the other; an exception escaping a callback
    stops the program. *)
Fixpoint run (replies : list Reply) : M unit :=
  match replies with
  | [] => mret tt
  | r :: rest => deliver r ;; run rest
  end.

Fixpoint applyAll (cs : list Closure) : M unit :=
  match cs with
  | [] => mret tt
  | c :: rest => apply c None [] ;; applyAll rest
  end.

(** The first consumer attaches to the stream: the 'reading' event fires
    its one-shot listeners. *)
Definition reading : M unit :=
  listeners ← gets readers;
  modify (set_readers (λ _, [])) ;;
  applyAll listeners.

End Request.

(** ** Vocabulary of the statements *)

Section Vocabulary.
Context {W : Wire} {C : Codec}.

(** The entity that [save] builds for a descriptor, given the key objects. *)
Definition entOf (K : gmap loc Key) (d : Descriptor) : Ent :=
  mkEnt match d_data d with
        | DataList records => PropertyList records
        | DataBag bag => FromBag (entityToEntityProto bag)
        end
        (keyToKeyProto (K !!! d_key d)).

(** The key of a descriptor is complete. *)
Definition complete (K : gmap loc Key) (d : Descriptor) : Prop :=
  isKeyComplete (K !!! d_key d) = true.

#[global] Instance complete_dec K d : Decision (complete K d) :=
  decide (isKeyComplete (K !!! d_key d) = true).

(** The positions, counted from [i], of the elements of [l] that satisfy
    [P], in increasing order. *)
Fixpoint positions {A} (P : A → Prop) `{∀ x, Decision (P x)}
    (i : nat) (l : list A) : list nat :=
  match l with
  | [] => []
  | x :: l =>
      if decide (P x) then i :: positions P (S i) l
      else positions P (S i) l
  end.

(** The records listed by the explicit data lists of the descriptors. *)
Definition listed (entities : list Descriptor) : list loc :=
  flat_map (λ d, match d_data d with
                 | DataList records => records
                 | DataBag _ => []
                 end) entities.

(** The data records after the records [ls] were rewritten, one after the
    other. *)
Definition rewritten (ls : list loc) (R : gmap loc DataRec)
    : gmap loc DataRec :=
  foldl (λ R l, <[l := convertData (R !!! l)]> R) R ls.

(** The two batches and the recorded positions for a list of descriptors. *)
Definition classified (K : gmap loc Key) (entities : list Descriptor) : Acc :=
  mkAcc (entOf K <$> filter (complete K) entities)
        (entOf K <$> filter (λ d, ¬ complete K d) entities)
        (positions (λ d, ¬ complete K d) 0 entities).

(** [m] run in [w] writes the one request [r] and parks [callback]; nothing
    else changes. *)
Definition dispatches (m : M unit) (w : World) (r : Request)
    (callback : Closure) : Prop :=
  m w = (Ok tt, set_inflight (λ l, l ++ [callback])
                  (set_sent (λ l, l ++ [r]) w)).

(** The continuation of a batch [get] after some rounds of deferral: one
    [GetMoreCb] per round, the latest outermost, around the callback. *)
Definition nest (founds : list (list Val)) (callback : Closure) : Closure :=
  foldr GetMoreCb callback founds.

(** The lookup request that [get] writes for the keys [ks]. *)
Definition lookupRequest (w : World) (ks : list Key) : Request :=
  mkRequest "POST" GOOGLE_APIS_HOST
    ("/datastore/v1beta2/datasets/" +:+ projectId w +:+ "/lookup")
    "application/x-protobuf" "LookupRequest"
    (mkBody (Some (keyToKeyProto <$> ks)) None
       match id w with
       | Some t => Some (mkReadOptions (Some t))
       | None => None
       end
       None None None None).

(** The keys a response defers, decoded. *)
Definition deferredKeys (r : Resp) : list Key :=
  keyFromKeyProto <$> default [] (deferred r).

(** The entities a response found. *)
Definition foundEntities (r : Resp) : list Entity := formatArray (found r).

(** What a callback is called with by a batch [get]: an error alone, or no
    error and one array. *)
Definition batchResult (err : option Err) (args : list Val) : Prop :=
  (∃ e, err = Some e ∧ args = []) ∨ (∃ l, err = None ∧ args = [VArray l]).

(** A reply read as a page of query results: its formatted entities and
    its cursor as [runQuery] computes it ([""] when there is none). *)
Definition pageEntities (r : Reply) : list Entity :=
  match r with
  | Decoded resp =>
      match batch resp with
      | Some b => formatArray (entity_result b)
      | None => []
      end
  | Failed _ => []
  end.

Definition pageCursor (r : Reply) : string :=
  match r with
  | Decoded resp =>
      match batch resp with
      | Some b =>
          match end_cursor b with
          | Some c => toBase64 c
          | None => ""
          end
      | None => ""
      end
  | Failed _ => ""
  end.

Definition isPage (r : Reply) : Prop :=
  ∃ resp b, r = Decoded resp ∧ batch resp = Some b.

(** A page that holds entities and a cursor to go on from. *)
Definition continuing (r : Reply) : Prop :=
  isPage r ∧ pageEntities r ≠ [] ∧ pageCursor r ≠ "".

(** A page that the stream takes for the end of the results: it holds no
    entity, or no cursor. *)
Definition endOfResults (r : Reply) : Prop :=
  isPage r ∧ (pageEntities r = [] ∨ pageCursor r = "").

(** The entities pushed on the stream, read off a trace. *)
Definition pushed (t : list Event) : list Entity :=
  omap (λ e, match e with Push x => Some x | _ => None end) t.

(** The request body for the page after cursor [cursor]. *)
Definition nextPage (q : Query) (req : Body) (cursor : string) : Body :=
  mkBody (b_key req) (b_mutation req) (b_read_options req)
         (Some (queryToQueryProto (offset (start q cursor) 0)))
         (b_partition_id req) (b_mode req) (b_transaction req).

End Vocabulary.

(** ** A concrete instance of the collaborators

    Modelled from the spec: [entity.js], [query.js] and the buffer library
    are not among the sources.  This instance gives them the simplest
    behaviour the data model of the spec allows (a key is complete iff its
    final path segment has an identifier); it serves to run the operations
    on concrete inputs. *)
Module Demo.

Record query := mkQuery {
  q_limit : Z;
  q_ns : option string;
  q_start : option string;
  q_offset : Z
}.

#[export] Instance wire : Wire := {|
  Value := Z;
  Property := Z * option bool;
  Bag := list (string * Z);
  EntityProto := list (string * Z);
  Path := list (string * option Z);
  KeyProto := option string * list (string * option Z);
  EntityResult := Z;
  Entity := Z;
  Query := query;
  QueryProto := query;
  ByteBuffer := string;
  TxId := string
|}.

Definition finalSegmentHasId (k : Key) : bool :=
  match last (path k) with
  | Some (_, Some _) => true
  | _ => false
  end.

#[export] Instance codec : Codec := {|
  keyToKeyProto := λ k, (namespace k, path k);
  keyFromKeyProto := λ p, mkKey (fst p) (snd p);
  isKeyComplete := finalSegmentHasId;
  entityToEntityProto := λ b, b;
  valueToProperty := λ v, match v with Raw z => (z, None) | Converted p => p end;
  set_indexed := λ b p, (fst p, Some b);
  formatArray := λ l, l;
  queryToQueryProto := λ q, q;
  limitVal := q_limit;
  q_namespace := q_ns;
  start := λ q c, mkQuery (q_limit q) (q_ns q) (Some c) (q_offset q);
  offset := λ q n, mkQuery (q_limit q) (q_ns q) (q_start q) n;
  toBase64 := λ b, b
|}.

(** A dataset handle with no transaction, and a transaction handle. *)
Definition dataset (K : gmap loc Key) (R : gmap loc DataRec) : World :=
  mkWorld None "proj" [] [] K R [] [] [] [].

Definition transaction (K : gmap loc Key) (R : gmap loc DataRec) : World :=
  mkWorld (Some "tx1") "proj" [] [] K R [] [] [] [].

(** Three key objects, at locations 0, 1 and 2: A and C lack the final
    identifier, B has one.  One data record, at location 0. *)
Definition keyA : Key := mkKey None [("Company", None)].
Definition keyB : Key := mkKey None [("Company", Some 123)].
Definition keyC : Key := mkKey (Some "ns") [("Company", Some 123); ("Product", None)].

Definition K : gmap loc Key :=
  <[0%nat := keyA]> (<[1%nat := keyB]> (<[2%nat := keyC]> ∅)).

Definition rating : DataRec := mkDataRec "rating" (Raw 10) (Some (inl true)).

Definition R : gmap loc DataRec := <[0%nat := rating]> ∅.

Definition entA : Descriptor := mkDescriptor 0%nat (DataBag [("HQ", 1)]).
Definition entB : Descriptor := mkDescriptor 1%nat (DataList [0%nat]).
Definition entC : Descriptor := mkDescriptor 2%nat (DataBag []).

(** The keys the store generates for A and C. *)
Definition genA : KeyProto := (None, [("Company", Some 7)]).
Definition genC : KeyProto :=
  (Some "ns", [("Company", Some 123); ("Product", Some 8)]).

Definition committed : Resp :=
  mkResp [] None (Some (mkMutationResult (Some [genA; genC]))) None None.

(** Lookup responses: one that defers a key, one that defers nothing. *)
Definition deferring (fs : list Z) : Resp :=
  mkResp fs (Some [genA]) None None None.

Definition settled (fs : list Z) : Resp := mkResp fs None None None None.

(** Queries with a limit, and pages of results. *)
Definition limited (n : Z) : query := mkQuery n None None 0.

Definition pageOf (es : list Z) (cursor : option string) : Reply :=
  Decoded (mkResp [] None None (Some (mkBatch es cursor)) None).

End Demo.

(** ** Further vocabulary: query requests and sequences of mutations *)

Section Drivers.
Context {W : Wire} {C : Codec}.

(** The request that [runQuery] writes for the body [body]. *)
Definition queryRequest (w : World) (body : Body) : Request :=
  mkRequest "POST" GOOGLE_APIS_HOST
    ("/datastore/v1beta2/datasets/" +:+ projectId w +:+ "/runQuery")
    "application/x-protobuf" "RunQueryRequest" body.

(** The body of the first request of a query (lines 373-382). *)
Definition firstPage (q : Query) : Body :=
  mkBody None None (Some (mkReadOptions None)) (Some (queryToQueryProto q))
    match q_namespace q with
    | Some ns => if bool_decide (ns = "") then None else Some ns
    | None => None
    end None None.

(** A mutation call, and a program that makes several in a row. *)
Inductive Op :=
| SaveOp (entities : OneOrMany Descriptor) (callback : option Closure)
| DeleteOp (keys : OneOrMany Key) (callback : option Closure).

Definition perform (o : Op) : M unit :=
  match o with
  | SaveOp entities callback => save entities callback
  | DeleteOp keys callback => delete_ keys callback
  end.

Fixpoint performAll (os : list Op) : M unit :=
  match os with
  | [] => mret tt
  | o :: os => perform o ;; performAll os
  end.

(** The request a mutation call builds, and the continuation it queues
    under a transaction (none for a delete). *)
Definition queuedRequest (K : gmap loc Key) (o : Op) : Body :=
  match o with
  | SaveOp entities _ => save_req (classified K (toArray entities))
  | DeleteOp keys _ => delete_req (toArray keys)
  end.

Definition queuedCallbacks (K : gmap loc Key) (o : Op) : list Closure :=
  match o with
  | SaveOp entities callback =>
      [OnCommit (toArray entities)
                (acc_insertIndexes (classified K (toArray entities))) callback]
  | DeleteOp _ _ => []
  end.

End Drivers.

(** * The storage entry point (storage/index.js)

    [Storage.prototype.createBucket], [getBuckets] and [makeReq_].  The
    objects that callers pass (a metadata object, a query object) are plain
    objects: finite maps from property names to values, held in a heap
    because the code writes to them.  A property that is absent reads as
    undefined.  [Bucket] (bucket.js) and the authorized request function
    (util.js) are not part of this file: the constructor is taken as a
    parameter and the request function parks the callback until the reply
    comes, as for the datastore. *)
Module Storage.

Inductive JsVal :=
| JNull
| JBool (b : bool)
| JNum (n : Z)
| JStr (s : string).

(** [!!v] for a property value; [None] is undefined. *)
Definition truthy (v : option JsVal) : bool :=
  match v with
  | None | Some JNull => false
  | Some (JBool b) => b
  | Some (JNum n) => negb (n =? 0)
  | Some (JStr s) => negb (bool_decide (s = ""))
  end.

(** [extend(target, source)] of the extend package: the properties of the
    source are copied onto the target, which is returned. *)
Definition extend (target source : gmap string JsVal) : gmap string JsVal :=
  source ∪ target.

Definition STORAGE_BASE_URL : string :=
  "https://www.googleapis.com/storage/v1/b".

(** An argument as the caller passes it. *)
Inductive Arg :=
| AUndefined
| AObject (l : loc)
| AFunction (f : nat).

Definition given (a : Arg) : bool :=
  match a with AUndefined => false | _ => true end.

(** A response body: its scalar properties and its [items] array. *)
Record Json := mkJson {
  fields : gmap string JsVal;
  items : option (list (gmap string JsVal))
}.

Inductive Reply :=
| Failed (err : Err)
| Replied (resp : Json).

Record ReqOpts := mkReqOpts {
  method : string;
  qs : gmap string JsVal;
  uri : string;
  json : option (gmap string JsVal)
}.

(** The query object of [getBuckets]: the caller's, or the fresh [{}]. *)
Inductive QueryRef :=
| Callers (l : loc)
| Fresh (o : gmap string JsVal).

Inductive Closure :=
| CreateCb (name : option JsVal) (callback : Arg)
| BucketsCb (query : QueryRef) (callback : Arg).

Section WithBucket.
Context {Bucket : Type}.
Variable newBucket : option JsVal → Bucket.   (* new Bucket(this, name) *)

(** What the caller's function receives after the error. *)
Inductive Val :=
| VNull
| VObject (o : gmap string JsVal)
| VCreated (b : Bucket) (metadata : Json)
| VBuckets (bs : list (Bucket * gmap string JsVal)).

Inductive Event :=
| Called (f : nat) (err : option Err) (args : list Val).

Record World := mkWorld {
  projectId : option JsVal;                  (* this.projectId *)
  objects : gmap loc (gmap string JsVal);    (* the caller's objects *)
  sent : list ReqOpts;
  inflight : list Closure;
  trace : list Event
}.

Definition M (A : Type) : Type := World → Res A * World.

(** [makeReq_] (lines 283-295). *)
Definition makeReq_ (method : string) (path : string)
    (query : gmap string JsVal) (body : option (gmap string JsVal))
    (callback : Closure) : M unit := λ w,
  let reqOpts := mkReqOpts method query (STORAGE_BASE_URL +:+ path) body in
  (Ok tt, mkWorld (projectId w) (objects w) (sent w ++ [reqOpts])
                  (inflight w ++ [callback]) (trace w)).

(** [{project: this.projectId}] *)
Definition projectQuery (w : World) : gmap string JsVal :=
  match projectId w with
  | Some v => {[ "project" := v ]}
  | None => ∅
  end.

(** The second argument after the shift of arguments: what the caller
    passed, or the fresh [{}] that stands in when the callback came
    second. *)
Inductive Shifted :=
| Passed (a : Arg)
| EmptyObject.

(** [createBucket] (lines 188-211), up to the request.  [extend] writes the
    name onto the metadata object; when the metadata is not an object of
    the caller (the fresh [{}], or no object at all) nothing of the caller
    is written. *)
Definition createBucket (name : option JsVal) (metadata callback : Arg)
    : M unit := λ w,
  if negb (truthy name) then
    (Throw (Error "A name is required to create a bucket."), w)
  else
    let '(callback, metadata) :=
      if given callback then (callback, Passed metadata)
      else (metadata, EmptyObject) in
    let query := projectQuery w in
    let named : gmap string JsVal :=
      match name with
      | Some n => {[ "name" := n ]}
      | None => ∅
      end in
    match metadata with
    | Passed (AObject l) =>
        let body := extend (objects w !!! l) named in
        makeReq_ "POST" "" query (Some body) (CreateCb name callback)
          (mkWorld (projectId w) (<[l := body]> (objects w)) (sent w)
                   (inflight w) (trace w))
    | _ =>
        let body := extend ∅ named in
        makeReq_ "POST" "" query (Some body) (CreateCb name callback) w
    end.

(** [query.project = query.project || this.projectId] *)
Definition withProject (w : World) (query : gmap string JsVal)
    : gmap string JsVal :=
  if truthy (query !! "project") then query
  else match projectId w with
       | Some v => <["project" := v]> query
       | None => base.delete "project" query
       end.

(** [getBuckets] (lines 246-269), up to the request.  Reading
    [query.project] of an undefined query is a TypeError. *)
Definition getBuckets (query callback : Arg) : M unit := λ w,
  let '(callback, query) :=
    if given callback then (callback, Passed query)
    else (query, EmptyObject) in
  match query with
  | Passed (AObject l) =>
      let q := withProject w (objects w !!! l) in
      makeReq_ "GET" "" q None (BucketsCb (Callers l) callback)
        (mkWorld (projectId w) (<[l := q]> (objects w)) (sent w)
                 (inflight w) (trace w))
  | Passed AUndefined => (Throw TypeError, w)
  | _ =>
      let q := withProject w ∅ in
      makeReq_ "GET" "" q None (BucketsCb (Fresh q) callback) w
  end.

(** Calling what stands for the callback. *)
Definition call (callback : Arg) (err : option Err) (args : list Val)
    : M unit := λ w,
  match callback with
  | AFunction f =>
      (Ok tt, mkWorld (projectId w) (objects w) (sent w) (inflight w)
                      (trace w ++ [Called f err args]))
  | _ => (Throw TypeError, w)
  end.

(** The callbacks (lines 202-210 and 253-268). *)
Definition apply (c : Closure) (reply : Reply) : M unit :=
  match c with
  | CreateCb name callback =>
      match reply with
      | Failed err => call callback (Some err) []
      | Replied resp => call callback None [VCreated (newBucket name) resp]
      end
  | BucketsCb query callback =>
      match reply with
      | Failed err => call callback (Some err) []
      | Replied resp => λ w,
          let buckets :=
            (λ item, (newBucket (item !! "id"), item))
              <$> default [] (items resp) in
          let q := match query with
                   | Callers l => objects w !!! l
                   | Fresh o => o
                   end in
          let nextQuery :=
            match fields resp !! "nextPageToken" with
            | Some token =>
                if truthy (Some token) then
                  VObject (extend (extend ∅ q) {[ "pageToken" := token ]})
                else VNull
            | None => VNull
            end in
          call callback None [VBuckets buckets; nextQuery] w
      end
  end.

(** The reply to the oldest request in flight arrives. *)
Definition deliver (reply : Reply) : M unit := λ w,
  match inflight w with
  | [] => (Ok tt, w)
  | c :: rest =>
      apply c reply
        (mkWorld (projectId w) (objects w) (sent w) rest (trace w))
  end.

End WithBucket.

End Storage.

(** * The static file server (app.twitterbootstrap.js)

    The request handler and the start-up loop over the cache [files], a
    plain object used as a map from request paths to file contents.
    Request paths start with a slash, so they never name an inherited
    property.  The disk is a map from file names to contents;
    [fs.readFileSync] throws when the file is not there. *)
Module App.

Definition path : string := "./twitter-bootstrap/".

Record State := mkState {
  files : gmap string string;     (* the cache *)
  disk : gmap string string
}.

Inductive Outcome :=
| Sent (content : string)         (* res.end(content) *)
| Thrown.                         (* readFileSync threw *)

(** The two files read at start-up (lines of the forEach). *)
Fixpoint preload (names : list string) (st : State) : option State :=
  match names with
  | [] => Some st
  | file :: rest =>
      match disk st !! (path +:+ file) with
      | Some content =>
          preload rest
            (mkState (<["/" +:+ file := content]> (files st)) (disk st))
      | None => None
      end
  end.

Definition startup (d : gmap string string) : option State :=
  preload ["TwitterBootstrap.html"; "index.html"] (mkState ∅ d).

(** The handler given to [app.use]: a cached content that is truthy is
    sent as it is; otherwise the file is read, cached and sent.  (The
    logging is left out.) *)
Definition handler (req_path : string) (st : State) : Outcome * State :=
  let read :=
    match disk st !! (path +:+ req_path) with
    | Some content =>
        (Sent content,
         mkState (<[req_path := content]> (files st)) (disk st))
    | None => (Thrown, st)
    end in
  match files st !! req_path with
  | Some content =>
      if bool_decide (content = "") then read else (Sent content, st)
  | None => read
  end.

(** What can happen between two requests of interest: another request, or
    a file written or removed on disk. *)
Inductive Step :=
| Request (req_path : string)
| Write (name content : string)
| Remove (name : string).

Definition step (s : Step) (st : State) : State :=
  match s with
  | Request p => (handler p st).2
  | Write n c => mkState (files st) (<[n := c]> (disk st))
  | Remove n => mkState (files st) (base.delete n (disk st))
  end.

Definition steps (l : list Step) (st : State) : State :=
  foldl (λ st s, step s st) st l.

End App.

(** ** Sample objects for the storage entry point and the file server *)
Module Samples.

(** Buckets known by their name alone. *)
Definition bucketNamed (name : option Storage.JsVal) : option Storage.JsVal :=
  name.

Definition storage : Storage.World (Bucket := option Storage.JsVal) :=
  Storage.mkWorld (Some (Storage.JStr "proj"))
    (<[0%nat := {[ "maxResults" := Storage.JNum 5 ]}]> ∅) [] [] [].

Definition listing : Storage.Json :=
  Storage.mkJson {[ "nextPageToken" := Storage.JStr "t1" ]}
    (Some [ {[ "id" := Storage.JStr "albums" ]};
            {[ "id" := Storage.JStr "photos" ]} ]).

Definition onDisk : gmap string string :=
  <["./twitter-bootstrap/TwitterBootstrap.html" := "<b/>"]>
    (<["./twitter-bootstrap/index.html" := "<p/>"]>
       (<["./twitter-bootstrap//empty.css" := ""]> ∅)).

End Samples.

(** * Properties *)

Ltac munfold :=
  unfold emit; unfold mbind, M_bind, mret, M_ret, gets, modify, throw.

Ltac wunfold :=
  unfold set_requests_, set_requestCallbacks_, set_keys, set_recs, set_sent,
    set_inflight, set_readers, set_trace; simpl in *.

Section Dispatcher.
Context {W : Wire} {C : Codec}.

Lemma makeReq__eq c rest body callback w :
  makeReq_ (String c rest) body (Some callback) w =
  (Ok tt,
   set_inflight (λ l, l ++ [callback])
     (set_sent (λ l, l ++
        [mkRequest "POST" GOOGLE_APIS_HOST
           ("/datastore/v1beta2/datasets/" +:+ projectId w +:+ "/" +:+ String c rest)
           "application/x-protobuf"
           (String (toUpperCase c) rest +:+ "Request")
           (let body :=
              if bool_decide (String c rest = "commit") then
                match id w with
                | Some t =>
                    mkBody (b_key body) (b_mutation body) (b_read_options body)
                      (b_query body) (b_partition_id body)
                      (Some MODE_TRANSACTIONAL) (Some t)
                | None =>
                    mkBody (b_key body) (b_mutation body) (b_read_options body)
                      (b_query body) (b_partition_id body)
                      (Some MODE_NON_TRANSACTIONAL) (b_transaction body)
                end
              else body in
            match id w with
            | Some t =>
                if bool_decide (String c rest = "lookup") then
                  mkBody (b_key body) (b_mutation body)
                    (Some (set_ro_transaction t
                       (default (mkReadOptions None) (b_read_options body))))
                    (b_query body) (b_partition_id body)
                    (b_mode body) (b_transaction body)
                else body
            | None => body
            end)]) w)).
Proof. reflexivity. Qed.

(** C9.  A commit is framed by the transaction: with an identifier bound
    the body gets mode TRANSACTIONAL and the identifier, without one it gets
    mode NON_TRANSACTIONAL.  A lookup with an identifier bound gets the
    identifier under read_options.  Every other action, and a lookup with no
    identifier bound, is sent with the body as it was given. *)
Theorem makeReq__transaction_framing body callback w :
  (∃ r, dispatches (makeReq_ "commit" body (Some callback)) w r callback
        ∧ message r = "CommitRequest"
        ∧ req_body r =
          match id w with
          | Some t =>
              mkBody (b_key body) (b_mutation body) (b_read_options body)
                (b_query body) (b_partition_id body)
                (Some MODE_TRANSACTIONAL) (Some t)
          | None =>
              mkBody (b_key body) (b_mutation body) (b_read_options body)
                (b_query body) (b_partition_id body)
                (Some MODE_NON_TRANSACTIONAL) (b_transaction body)
          end)
  ∧ (∃ r, dispatches (makeReq_ "lookup" body (Some callback)) w r callback
          ∧ message r = "LookupRequest"
          ∧ req_body r =
            match id w with
            | Some t =>
                mkBody (b_key body) (b_mutation body)
                  (Some (mkReadOptions (Some t)))
                  (b_query body) (b_partition_id body)
                  (b_mode body) (b_transaction body)
            | None => body
            end)
  ∧ (∀ c rest, String c rest ≠ "commit" → String c rest ≠ "lookup" →
       ∃ r, dispatches (makeReq_ (String c rest) body (Some callback)) w r
                       callback
            ∧ req_body r = body).
Proof.
  split; [|split].
  - eexists. split; [apply makeReq__eq|]. split; [reflexivity|].
    simpl. destruct (id w); reflexivity.
  - eexists. split; [apply makeReq__eq|]. split; [reflexivity|].
    simpl. destruct (id w); reflexivity.
  - intros c rest Hc Hl. eexists. split; [apply makeReq__eq|].
    simpl. rewrite !bool_decide_eq_false_2 by assumption.
    destruct (id w); reflexivity.
Qed.

(** The reply to a request parked alone reaches its callback. *)
Lemma deliver_parked c r (w : World) :
  inflight w = [] →
  deliver r (set_inflight (λ l, l ++ [c]) w) =
  match r with
  | Failed e => apply c (Some e) []
  | Decoded resp => apply c None [VResp resp]
  end (set_inflight (λ _, []) w).
Proof.
  intros H. unfold deliver. munfold. destruct w; simpl in *; subst.
  reflexivity.
Qed.

Lemma deliver_idle r (w : World) : inflight w = [] → deliver r w = (Ok tt, w).
Proof. intros H. unfold deliver. munfold. by rewrite H. Qed.

Lemma run_idle rs (w : World) : inflight w = [] → run rs w = (Ok tt, w).
Proof.
  intros H. induction rs as [|r rs IH]; [done|].
  simpl. unfold mbind, M_bind. by rewrite deliver_idle.
Qed.

End Dispatcher.

Section Save.
Context {W : Wire} {C : Codec}.

Lemma set_recs_id (w : World) : set_recs (λ R, R) w = w.
Proof. by destruct w. Qed.

Lemma convertRecords_eq ls w :
  convertRecords ls w = (Ok ls, set_recs (rewritten ls) w).
Proof.
  revert w. induction ls as [|l ls IH]; intros w; simpl.
  - munfold. by destruct w.
  - munfold. simpl. unfold mbind, M_bind. rewrite IH. reflexivity.
Qed.

Lemma buildEnt_eq d w :
  buildEnt d w =
  (Ok (entOf (keys w) d),
   set_recs (rewritten (match d_data d with
                        | DataList records => records
                        | DataBag _ => []
                        end)) w).
Proof.
  unfold buildEnt, entOf. destruct (d_data d) as [records|bag].
  - munfold. unfold mbind, M_bind. rewrite convertRecords_eq. reflexivity.
  - munfold. simpl. by destruct w.
Qed.

Lemma rewritten_app l1 l2 R :
  rewritten (l1 ++ l2) R = rewritten l2 (rewritten l1 R).
Proof. apply foldl_app. Qed.

Lemma set_recs_rewritten_app l1 l2 w :
  set_recs (rewritten (l1 ++ l2)) w =
  set_recs (rewritten l2) (set_recs (rewritten l1) w).
Proof. destruct w. unfold set_recs. simpl. by rewrite rewritten_app. Qed.

Lemma save_reduce_eq entities : ∀ index acc w,
  save_reduce entities index acc w =
  (Ok (mkAcc
         (acc_upsert acc ++ (entOf (keys w) <$> filter (complete (keys w)) entities))
         (acc_insert_auto_id acc ++
            (entOf (keys w) <$> filter (λ d, ¬ complete (keys w) d) entities))
         (acc_insertIndexes acc ++
            positions (λ d, ¬ complete (keys w) d) index entities)),
   set_recs (rewritten (listed entities)) w).
Proof.
  induction entities as [|d ds IH]; intros index acc w.
  - simpl. munfold. rewrite !app_nil_r. by destruct acc, w.
  - change (listed (d :: ds)) with
      (match d_data d with
       | DataList records => records
       | DataBag _ => []
       end ++ listed ds).
    rewrite set_recs_rewritten_app.
    simpl. unfold mbind, M_bind. rewrite buildEnt_eq. munfold. simpl.
    rewrite IH. simpl. do 2 f_equal.
    rewrite !filter_cons. simpl.
    destruct (isKeyComplete (keys w !!! d_key d)) eqn:E;
        repeat case_decide; unfold complete in *; try congruence;
        simpl; by rewrite <- ?app_assoc.
Qed.

Lemma save_eq entities callback w :
  let es := toArray entities in
  let acc := classified (keys w) es in
  let onCommit := OnCommit es (acc_insertIndexes acc) callback in
  save entities callback w =
  match id w with
  | Some _ =>
      (Ok tt,
       set_requestCallbacks_ (λ l, l ++ [onCommit])
         (set_requests_ (λ l, l ++ [save_req acc])
            (set_recs (rewritten (listed es)) w)))
  | None =>
      makeReq_ "commit" (save_req acc) (Some onCommit)
               (set_recs (rewritten (listed es)) w)
  end.
Proof.
  intros es acc onCommit. unfold save. unfold mbind at 1, M_bind at 1.
  rewrite save_reduce_eq. simpl. munfold. simpl.
  destruct (id w); reflexivity.
Qed.

Lemma delete__eq keys callback w :
  delete_ keys callback w =
  match id w with
  | Some _ =>
      (Ok tt, set_requests_ (λ l, l ++ [delete_req (toArray keys)]) w)
  | None =>
      makeReq_ "commit" (delete_req (toArray keys))
               (Some (default Noop callback)) w
  end.
Proof. unfold delete_. munfold. simpl. by destruct (id w). Qed.

(** C5.  With a transaction identifier bound, [save] appends its request
    to the pending requests and its completion continuation to the pending
    callbacks, [delete] appends its request and no continuation, and neither
    writes a request or parks a callback with the dispatcher.  With no
    identifier bound, each dispatches one commit at once and leaves the
    queues alone. *)
Theorem save_delete_buffering entities keys_ callback w :
  let es := toArray entities in
  let acc := classified (keys w) es in
  let onCommit := OnCommit es (acc_insertIndexes acc) callback in
  let s := save entities callback w in
  let d := delete_ keys_ callback w in
  s.1 = Ok tt ∧ d.1 = Ok tt ∧
  match id w with
  | Some t =>
      (requests_ s.2 = requests_ w ++ [save_req acc]
       ∧ requestCallbacks_ s.2 = requestCallbacks_ w ++ [onCommit]
       ∧ sent s.2 = sent w ∧ inflight s.2 = inflight w)
      ∧ (requests_ d.2 = requests_ w ++ [delete_req (toArray keys_)]
         ∧ requestCallbacks_ d.2 = requestCallbacks_ w
         ∧ sent d.2 = sent w ∧ inflight d.2 = inflight w)
  | None =>
      (∃ r, sent s.2 = sent w ++ [r]
            ∧ message r = "CommitRequest"
            ∧ b_mutation (req_body r) = b_mutation (save_req acc)
            ∧ b_mode (req_body r) = Some MODE_NON_TRANSACTIONAL
            ∧ inflight s.2 = inflight w ++ [onCommit]
            ∧ requests_ s.2 = requests_ w
            ∧ requestCallbacks_ s.2 = requestCallbacks_ w)
      ∧ (∃ r, sent d.2 = sent w ++ [r]
              ∧ message r = "CommitRequest"
              ∧ b_mutation (req_body r) = b_mutation (delete_req (toArray keys_))
              ∧ b_mode (req_body r) = Some MODE_NON_TRANSACTIONAL
              ∧ inflight d.2 = inflight w ++ [default Noop callback]
              ∧ requests_ d.2 = requests_ w
              ∧ requestCallbacks_ d.2 = requestCallbacks_ w)
  end.
Proof.
  intros es acc onCommit s d. subst s d.
  rewrite save_eq, delete__eq. fold es acc onCommit.
  destruct (id w) as [t|] eqn:Hid.
  - simpl. repeat split; reflexivity.
  - rewrite !makeReq__eq. simpl. rewrite Hid.
    repeat split; try reflexivity; eexists; repeat split; reflexivity.
Qed.

(** *** What the recorded positions are *)

Lemma positions_lookup {A} (P : A → Prop) `{∀ x, Decision (P x)} (l : list A) :
  ∀ i k j, positions P i l !! k = Some j →
    ∃ d, (i ≤ j)%nat ∧ l !! (j - i)%nat = Some d ∧ P d ∧ filter P l !! k = Some d.
Proof.
  induction l as [|x l IH]; intros i k j Hk; simpl in Hk; [done|].
  rewrite filter_cons. destruct (decide (P x)) as [Hx|Hx].
  - destruct k as [|k]; simpl in Hk.
    + injection Hk as <-. exists x. rewrite Nat.sub_diag. by repeat split.
    + destruct (IH _ _ _ Hk) as (d & Hle & Hd & HP & Hf).
      exists d. repeat split; [lia| |done|done].
      replace (j - i)%nat with (S (j - S i)) by lia. done.
  - destruct (IH _ _ _ Hk) as (d & Hle & Hd & HP & Hf).
    exists d. repeat split; [lia| |done|done].
    replace (j - i)%nat with (S (j - S i)) by lia. done.
Qed.

Lemma positions_length {A} (P : A → Prop) `{∀ x, Decision (P x)} (l : list A) :
  ∀ i, length (positions P i l) = length (filter P l).
Proof.
  induction l as [|x l IH]; intros i; simpl; [done|].
  rewrite filter_cons. destruct (decide (P x)); simpl; by rewrite IH.
Qed.

Lemma positions_sorted {A} (P : A → Prop) `{∀ x, Decision (P x)} (l : list A) :
  ∀ i, StronglySorted lt (positions P i l).
Proof.
  induction l as [|x l IH]; intros i; simpl; [constructor|].
  destruct (decide (P x)); [|apply IH].
  constructor; [apply IH|].
  apply Forall_forall. intros j Hj.
  apply list_elem_of_lookup in Hj as [k Hk].
  apply positions_lookup in Hk as (d & Hle & _). lia.
Qed.

(** *** What the forEach of onCommit writes *)

Lemma reconcile_cons es idx g gks i w :
  reconcile es idx (g :: gks) i w =
  match idx !! i with
  | None => (Throw TypeError, w)
  | Some j =>
      match es !! j with
      | None => (Throw TypeError, w)
      | Some d =>
          reconcile es idx gks (S i)
            (set_keys (λ K, <[d_key d :=
               set_path (path (keyFromKeyProto g)) (K !!! d_key d)]> K) w)
      end
  end.
Proof.
  simpl. destruct (idx !! i) as [j|]; [|done].
  destruct (es !! j); done.
Qed.

(** Only the key objects change, and of a key object only the path. *)
Lemma reconcile_frame es idx gks : ∀ i w,
  ∃ K', (reconcile es idx gks i w).2 = set_keys (λ _, K') w
        ∧ ∀ l, namespace (K' !!! l) = namespace (keys w !!! l).
Proof.
  induction gks as [|g gks IH]; intros i w.
  - exists (keys w). split; [by destruct w|done].
  - rewrite reconcile_cons.
    destruct (idx !! i) as [j|]; [|exists (keys w); split; [by destruct w|done]].
    destruct (es !! j) as [d|]; [|exists (keys w); split; [by destruct w|done]].
    destruct (IH (S i) (set_keys (λ K, <[d_key d :=
               set_path (path (keyFromKeyProto g)) (K !!! d_key d)]> K) w))
      as (K' & HK' & Hns).
    exists K'. split; [rewrite HK'; by destruct w|].
    intros l. rewrite Hns. simpl.
    destruct (decide (d_key d = l)) as [<-|Hne].
    + by rewrite lookup_total_insert_eq.
    + by rewrite lookup_total_insert_ne.
Qed.

(** A key object that no processed position refers to is not written. *)
Lemma reconcile_unwritten es idx l gks : ∀ i w,
  (∀ k j d, (k < length gks)%nat → idx !! (i + k)%nat = Some j →
            es !! j = Some d → d_key d ≠ l) →
  keys (reconcile es idx gks i w).2 !! l = keys w !! l.
Proof.
  induction gks as [|g gks IH]; intros i w Hl; [done|].
  rewrite reconcile_cons.
  destruct (idx !! i) as [j|] eqn:Hj; [|done].
  destruct (es !! j) as [d|] eqn:Hd; [|done].
  rewrite IH.
  - simpl. apply lookup_insert_ne.
    apply (Hl 0%nat j d); [simpl; lia|by rewrite Nat.add_0_r|done].
  - intros k j' d' Hk Hj' Hd'. apply (Hl (S k) j' d'); [simpl; lia| |done].
    by replace (i + S k)%nat with (S i + k)%nat by lia.
Qed.

(** The key object at the [k]-th processed position gets the path of the
    [k]-th generated key, unless a later position refers to the same
    object. *)
Lemma reconcile_written es idx :
  Forall (λ j, (j < length es)%nat) idx →
  ∀ gks i w k g j d,
    gks !! k = Some g → idx !! (i + k)%nat = Some j → es !! j = Some d →
    (∀ k' j' d', (k < k')%nat → (k' < length gks)%nat →
                 idx !! (i + k')%nat = Some j' → es !! j' = Some d' →
                 d_key d' ≠ d_key d) →
    path (keys (reconcile es idx gks i w).2 !!! d_key d)
    = path (keyFromKeyProto g).
Proof.
  intros Hidx gks. induction gks as [|g0 gks IH];
    intros i w k g j d Hg Hj Hd Hlater; [done|].
  rewrite reconcile_cons. destruct k as [|k]; simpl in Hg.
  - injection Hg as ->. rewrite Nat.add_0_r in Hj. rewrite Hj, Hd.
    rewrite lookup_total_alt, reconcile_unwritten.
    + simpl. by rewrite lookup_insert_eq.
    + intros k j' d' Hk Hj' Hd'.
      apply (Hlater (S k) j' d'); [lia|simpl; lia| |done].
      by replace (i + S k)%nat with (S i + k)%nat by lia.
  - assert (is_Some (idx !! i)) as [j0 Hj0].
    { apply lookup_lt_is_Some. apply lookup_lt_Some in Hj. lia. }
    assert (is_Some (es !! j0)) as [d0 Hd0].
    { apply lookup_lt_is_Some.
      by apply (proj1 (Forall_lookup _ _) Hidx i j0). }
    rewrite Hj0, Hd0. apply (IH (S i) _ k g j d); [done| |done|].
    + by replace (S i + k)%nat with (i + S k)%nat by lia.
    + intros k' j' d' Hk Hk' Hj' Hd'.
      apply (Hlater (S k') j' d'); [lia|simpl; lia| |done].
      by replace (i + S k')%nat with (S i + k')%nat by lia.
Qed.

(** Calling the callback that [save] was given. *)
Lemma call_given (f : option nat) err args (w : World) :
  match UserFn <$> f with
  | Some cb => apply cb err args
  | None => throw TypeError
  end w =
  match f with
  | Some f => (Ok tt, set_trace (λ t, t ++ [Called f err args]) w)
  | None => (Throw TypeError, w)
  end.
Proof. by destruct f. Qed.

Lemma onCommit_success es idx (f : option nat) resp rest mr w :
  mutation_result resp = Some mr →
  apply (OnCommit es idx (UserFn <$> f)) None (VResp resp :: rest) w =
  (reconcile es idx (default [] (insert_auto_id_key mr)) 0%nat ;;
   match UserFn <$> f with
   | Some cb => apply cb None []
   | None => throw TypeError
   end) w.
Proof.
  intros Hmr. simpl. munfold. unfold mbind, M_bind. simpl. by rewrite Hmr.
Qed.

Lemma keys_after_call (m : M unit) (f : option nat) err args (w : World) :
  keys ((m ;; match UserFn <$> f with
              | Some cb => apply cb err args
              | None => throw TypeError
              end) w).2 = keys (m w).2.
Proof.
  unfold mbind, M_bind. destruct (m w) as [[[]|e] w1]; [|done].
  rewrite call_given. by destruct f.
Qed.

Lemma positions_valid (P : Descriptor → Prop) `{∀ x, Decision (P x)}
    (es : list Descriptor) :
  Forall (λ j, (j < length es)%nat) (positions P 0 es).
Proof.
  apply Forall_forall. intros j Hj.
  apply list_elem_of_lookup in Hj as [k Hk].
  apply positions_lookup in Hk as (d & _ & Hd & _).
  apply lookup_lt_Some in Hd. lia.
Qed.

(** C1.  [save] on an array of descriptors puts the entity of every
    descriptor whose key is complete in the upsert batch and the entity of
    every other descriptor in the insert_auto_id batch, both in input order,
    and records the input positions of the latter in increasing order: the
    i-th recorded position is where the i-th entity of the insert_auto_id
    batch came from.  When the continuation is later called with a
    successful commit response, the path of the i-th generated key is
    written to the key object of the descriptor at the i-th recorded
    position (and stays there unless a later generated key goes to the same
    object), and the key objects of the descriptors with a complete key are
    as they were. *)
Theorem save_mixed_batch (es : list Descriptor) (f : option nat) (w : World) :
  let K := keys w in
  let s := save (Many es) (UserFn <$> f) w in
  let upserts := entOf K <$> filter (complete K) es in
  let inserts := entOf K <$> filter (λ d, ¬ complete K d) es in
  ∃ insertIndexes,
    let onCommit := OnCommit es insertIndexes (UserFn <$> f) in
    s.1 = Ok tt
    ∧ match id w with
      | Some _ =>
          requests_ s.2 =
            requests_ w ++ [save_req (mkAcc upserts inserts insertIndexes)]
          ∧ requestCallbacks_ s.2 = requestCallbacks_ w ++ [onCommit]
      | None =>
          (∃ r, sent s.2 = sent w ++ [r]
                ∧ b_mutation (req_body r) =
                  Some (mkMutation (Some upserts) (Some inserts) None))
          ∧ inflight s.2 = inflight w ++ [onCommit]
      end
    ∧ keys s.2 = K
    ∧ length insertIndexes = length inserts
    ∧ StronglySorted lt insertIndexes
    ∧ (∀ i j, insertIndexes !! i = Some j →
         ∃ d, es !! j = Some d ∧ ¬ complete K d
              ∧ inserts !! i = Some (entOf K d))
    ∧ ∀ w' resp mr,
        mutation_result resp = Some mr →
        let gks := default [] (insert_auto_id_key mr) in
        let c := apply onCommit None [VResp resp] w' in
        (∀ i g j d,
           gks !! i = Some g → insertIndexes !! i = Some j → es !! j = Some d →
           (∀ i' j' d', (i < i')%nat → (i' < length gks)%nat →
                        insertIndexes !! i' = Some j' → es !! j' = Some d' →
                        d_key d' ≠ d_key d) →
           path (keys c.2 !!! d_key d) = path (keyFromKeyProto g))
        ∧ (∀ d, d ∈ es → complete K d →
             keys c.2 !! d_key d = keys w' !! d_key d).
Proof.
  intros K s upserts inserts.
  exists (positions (λ d, ¬ complete K d) 0 es). intros onCommit.
  subst s. rewrite save_eq. simpl toArray.
  change (classified (keys w) es)
    with (mkAcc upserts inserts (positions (λ d, ¬ complete K d) 0 es)).
  simpl acc_insertIndexes. fold onCommit.
  assert (Hpos : ∀ i j, positions (λ d, ¬ complete K d) 0 es !! i = Some j →
            ∃ d, es !! j = Some d ∧ ¬ complete K d
                 ∧ filter (λ d, ¬ complete K d) es !! i = Some d).
  { intros i j Hi. apply positions_lookup in Hi as (d & _ & Hd & HP & Hf).
    rewrite Nat.sub_0_r in Hd. by exists d. }
  split; [|split; [|split; [|split; [|split; [|split]]]]].
  - destruct (id w); [done|]. by rewrite makeReq__eq.
  - destruct (id w) eqn:Hid; [done|]. rewrite makeReq__eq. simpl.
    rewrite Hid. split; [|done]. by eexists.
  - destruct (id w); [done|]. by rewrite makeReq__eq.
  - unfold inserts. by rewrite length_fmap, positions_length.
  - apply positions_sorted.
  - intros i j Hi. destruct (Hpos i j Hi) as (d & Hd & HP & Hf).
    exists d. repeat split; [done|done|].
    unfold inserts. by rewrite list_lookup_fmap, Hf.
  - intros w' resp mr Hmr gks c. subst c onCommit.
    rewrite (onCommit_success _ _ _ _ _ _ _ Hmr). fold gks.
    rewrite keys_after_call. split.
    + intros i g j d Hg Hj Hd Hlater.
      apply (reconcile_written es _ (positions_valid _ es) gks 0%nat w' i g j d);
        done.
    + intros d Hin Hc. apply reconcile_unwritten.
      intros k j d' _ Hj Hd' Heq.
      destruct (Hpos _ _ Hj) as (d'' & Hd'' & HP & _).
      rewrite Hd' in Hd''. injection Hd'' as <-.
      apply HP. unfold complete in *. by rewrite Heq.
Qed.

Lemma onCommit_failure es idx (f : option nat) err args w :
  is_Some err ∨ truthy (hd VUndefined args) = false →
  apply (OnCommit es idx (UserFn <$> f)) err args w =
  match f with
  | Some f => (Ok tt, set_trace (λ t, t ++ [Called f err []]) w)
  | None => (Throw TypeError, w)
  end.
Proof.
  intros H. rewrite <- call_given. cbn [apply].
  assert (bool_decide (is_Some err) || negb (truthy (hd VUndefined args)) = true)
    as ->; [|done].
  destruct H as [H| ->]; [|by rewrite orb_true_r].
  by rewrite bool_decide_eq_true_2.
Qed.

(** C6.  When the commit completion carries an error, or no response, the
    continuation of [save] calls the caller's function with the error
    argument alone (which is empty when there was no error) and changes
    nothing else: no key object is written.  In particular a [save] that is
    dispatched at once and whose commit fails leaves the key objects as they
    were and reports the error. *)
Theorem save_commit_failure entities (f : nat) err args (w : World) :
  is_Some err ∨ truthy (hd VUndefined args) = false →
  let es := toArray entities in
  let onCommit :=
    OnCommit es (acc_insertIndexes (classified (keys w) es)) (Some (UserFn f)) in
  (∀ w', apply onCommit err args w' =
         (Ok tt, set_trace (λ t, t ++ [Called f err []]) w'))
  ∧ (id w = None → inflight w = [] →
     ∀ e, let r := (save entities (Some (UserFn f)) ;; deliver (Failed e)) w in
          r.1 = Ok tt ∧ keys r.2 = keys w
          ∧ trace r.2 = trace w ++ [Called f (Some e) []]
          ∧ inflight r.2 = []).
Proof.
  intros H es onCommit. split.
  - intros w'. exact (onCommit_failure es _ (Some f) err args w' H).
  - intros Hid Hin e r. subst r. unfold mbind, M_bind.
    rewrite save_eq, Hid, makeReq__eq. fold es onCommit.
    rewrite deliver_parked by done.
    assert (Hf : ∀ w', apply onCommit (Some e) [] w' =
              (Ok tt, set_trace (λ t, t ++ [Called f (Some e) []]) w')).
    { intros w'. apply (onCommit_failure es _ (Some f)). left. by eexists. }
    rewrite Hf. by simpl.
Qed.

(** *** What [save] does to the data records *)

Lemma rewritten_cons l ls R :
  rewritten (l :: ls) R = rewritten ls (<[l := convertData (R !!! l)]> R).
Proof. done. Qed.

Lemma rewritten_unlisted ls l : ∀ R, l ∉ ls → rewritten ls R !! l = R !! l.
Proof.
  induction ls as [|x ls IH]; intros R Hl; [done|].
  apply not_elem_of_cons in Hl as [Hne Hl].
  rewrite rewritten_cons, IH by done. by apply lookup_insert_ne.
Qed.

Lemma rewritten_listed ls l : ∀ R,
  rewritten ls R !!! l
  = Nat.iter (length (filter (l =.) ls)) convertData (R !!! l).
Proof.
  induction ls as [|x ls IH]; intros R; [done|].
  rewrite rewritten_cons, IH, filter_cons.
  destruct (decide (l = x)) as [->|Hne].
  - rewrite lookup_total_insert_eq. simpl length. by rewrite Nat.iter_succ_r.
  - by rewrite lookup_total_insert_ne.
Qed.

Lemma convertData_name data : name (convertData data) = name data.
Proof.
  unfold convertData.
  by destruct (excludeFromIndexes data) as [[b|v]|].
Qed.

Lemma heap_after_call (m : M unit) (f : option nat) err args (w : World) :
  let c := (m ;; match UserFn <$> f with
                 | Some cb => apply cb err args
                 | None => throw TypeError
                 end) w in
  keys c.2 = keys (m w).2 ∧ recs c.2 = recs (m w).2.
Proof.
  simpl. unfold mbind, M_bind. destruct (m w) as [[[]|e] w1]; [|done].
  rewrite call_given. by destruct f.
Qed.

Lemma onCommit_not_resp es idx callback v rest (w : World) :
  truthy v = true → (∀ r, v ≠ VResp r) →
  apply (OnCommit es idx callback) None (v :: rest) w = (Throw TypeError, w).
Proof.
  intros Ht Hv. cbn [apply]. cbv zeta. cbn [hd]. rewrite Ht. simpl.
  destruct v; try done. by destruct (Hv r).
Qed.

#[local] Instance is_resp_dec (v : Val) : Decision (∃ r, v = VResp r).
Proof.
  destruct v; try (right; intros [? ?]; discriminate).
  left. by eexists.
Defined.

(** However it is called, the continuation of [save] writes nothing but the
    paths of key objects that a recorded position refers to. *)
Lemma onCommit_frame es idx (f : option nat) err args (w : World) :
  let c := apply (OnCommit es idx (UserFn <$> f)) err args w in
  recs c.2 = recs w
  ∧ (∀ l, namespace (keys c.2 !!! l) = namespace (keys w !!! l))
  ∧ (∀ l, (∀ k j d, idx !! k = Some j → es !! j = Some d → d_key d ≠ l) →
          keys c.2 !! l = keys w !! l).
Proof.
  intros c. subst c.
  destruct (decide (is_Some err ∨ truthy (hd VUndefined args) = false))
    as [H|H].
  - rewrite onCommit_failure by done. by destruct f.
  - assert (err = None) as ->.
    { destruct err; [|done]. exfalso. apply H. left. by eexists. }
    assert (Ht : truthy (hd VUndefined args) = true).
    { destruct (truthy (hd VUndefined args)) eqn:Ht; [done|].
      exfalso. apply H. by right. }
    destruct args as [|v rest]; [done|]. simpl in Ht.
    destruct (decide (∃ r, v = VResp r)) as [[r ->]|Hv].
    2: { rewrite onCommit_not_resp; [done|done|].
         intros r ->. apply Hv. by exists r. }
    destruct (mutation_result r) as [mr|] eqn:Hmr.
    + rewrite (onCommit_success _ _ _ _ _ _ _ Hmr).
      destruct (heap_after_call
                  (reconcile es idx (default [] (insert_auto_id_key mr)) 0%nat)
                  f None [] w) as [-> ->].
      destruct (reconcile_frame es idx (default [] (insert_auto_id_key mr))
                  0%nat w) as (K' & HK' & Hns).
      split; [by rewrite HK'|]. split; [rewrite HK'; apply Hns|].
      intros l Hl. apply reconcile_unwritten.
      intros k j d _ Hj Hd. by apply (Hl k j d).
    + cbn [apply]. simpl. munfold. unfold mbind, M_bind. simpl.
      by rewrite Hmr.
Qed.

(** C8, as amended.  [save] changes of the caller's objects (a) the records
    of the explicit data lists: each listed record is rewritten by the map
    callback once per listing (its value becomes the wire property, a
    boolean excludeFromIndexes is consumed), its name stays, and a record
    that is not listed stays as it was; and (b), when the continuation is
    called, the paths of key objects of descriptors whose key was
    incomplete: the data records are not touched then, no key object
    changes its namespace, and a key object that belongs to no
    incomplete-key descriptor stays as it was.  The call itself writes no
    key object. *)
Theorem save_frame entities (f : option nat) (w : World) :
  let es := toArray entities in
  let s := save entities (UserFn <$> f) w in
  let onCommit :=
    OnCommit es (acc_insertIndexes (classified (keys w) es)) (UserFn <$> f) in
  keys s.2 = keys w
  ∧ (∀ l, l ∉ listed es → recs s.2 !! l = recs w !! l)
  ∧ (∀ l, recs s.2 !!! l
          = Nat.iter (length (filter (l =.) (listed es))) convertData
                     (recs w !!! l))
  ∧ (∀ l, name (recs s.2 !!! l) = name (recs w !!! l))
  ∧ ∀ err args w',
      let c := apply onCommit err args w' in
      recs c.2 = recs w'
      ∧ (∀ l, namespace (keys c.2 !!! l) = namespace (keys w' !!! l))
      ∧ (∀ l, (∀ d, d ∈ es → ¬ complete (keys w) d → d_key d ≠ l) →
              keys c.2 !! l = keys w' !! l).
Proof.
  intros es s onCommit.
  assert (Hs : keys s.2 = keys w
               ∧ recs s.2 = rewritten (listed es) (recs w)).
  { subst s. rewrite save_eq. fold es.
    destruct (id w); [done|]. by rewrite makeReq__eq. }
  destruct Hs as [HK HR]. rewrite HK, HR.
  split; [done|]. split; [|split; [|split]].
  - intros l Hl. by apply rewritten_unlisted.
  - intros l. apply rewritten_listed.
  - intros l. rewrite rewritten_listed.
    induction (length (filter (l =.) (listed es))) as [|n IH]; [done|].
    simpl. by rewrite convertData_name.
  - intros err args w' c.
    destruct (onCommit_frame es (acc_insertIndexes (classified (keys w) es))
                f err args w') as (Hr & Hns & Hk).
    split; [done|]. split; [done|].
    intros l Hl. apply Hk. intros k j d Hj Hd.
    apply positions_lookup in Hj as (d' & _ & Hd' & HP & _).
    rewrite Nat.sub_0_r, Hd in Hd'. injection Hd' as <-.
    apply Hl; [|done]. apply list_elem_of_lookup. by exists j.
Qed.

End Save.

Section Lookup.
Context {W : Wire} {C : Codec}.

Lemma get_eq ks callback (w : World) :
  get ks callback w =
  (Ok tt, set_inflight (λ l, l ++ [GetCb (isArray ks) (default Noop callback)])
            (set_sent (λ l, l ++ [lookupRequest w (toArray ks)]) w)).
Proof.
  unfold get. rewrite makeReq__eq. unfold lookupRequest. simpl.
  by destruct (id w).
Qed.

Lemma apply_nest_err founds callback e (w : World) :
  apply (nest founds callback) (Some e) [] w = apply callback (Some e) [] w.
Proof. induction founds as [|F Fs IH]; [done|]. simpl. apply IH. Qed.

Lemma apply_nest_ok founds callback : ∀ l (w : World),
  apply (nest founds callback) None [VArray l] w
  = apply callback None [VArray (mjoin (rev founds) ++ l)] w.
Proof.
  induction founds as [|F Fs IH]; intros l w; [done|].
  simpl. rewrite IH. rewrite join_app. simpl.
  by rewrite app_nil_r, <- app_assoc.
Qed.

(** The reply to a batch lookup parked alone. *)
Lemma deliver_get c r (w : World) :
  inflight w = [] →
  deliver r (set_inflight (λ l, l ++ [GetCb true c]) w) =
  match r with
  | Failed e => apply c (Some e) [] (set_inflight (λ _, []) w)
  | Decoded resp =>
      if has_length (deferred resp) then
        get (Many (deferredKeys resp))
            (Some (GetMoreCb (VEntity <$> foundEntities resp) c))
            (set_inflight (λ _, []) w)
      else
        apply c None [VArray (VEntity <$> foundEntities resp)]
              (set_inflight (λ _, []) w)
  end.
Proof.
  intros H. rewrite deliver_parked by done. destruct r as [e|resp]; [done|].
  cbn [apply]. munfold. unfold mbind, M_bind. simpl.
  by destruct (has_length (deferred resp)).
Qed.

Lemma run_rounds (f : nat) (final : Resp) (rounds : list Resp) :
  has_length (deferred final) = false →
  Forall (λ r, has_length (deferred r) = true) rounds →
  ∀ founds (w : World),
    inflight w = [] →
    run (Decoded <$> (rounds ++ [final]))
        (set_inflight (λ l, l ++ [GetCb true (nest founds (UserFn f))]) w)
    = (Ok tt,
       set_trace (λ t, t ++
           [Called f None
              [VArray (mjoin (rev founds) ++
                       (VEntity <$> mjoin (foundEntities <$> (rounds ++ [final]))))]])
         (set_sent (λ l, l ++ ((λ r, lookupRequest w (deferredKeys r)) <$> rounds))
            (set_inflight (λ _, []) w))).
Proof.
  intros Hfinal Hrounds.
  induction Hrounds as [|r rs Hr _ IH]; intros founds w Hw.
  - simpl. unfold mbind, M_bind. rewrite deliver_get by done.
    rewrite Hfinal, apply_nest_ok. simpl. munfold.
    destruct w; wunfold. by rewrite !app_nil_r.
  - simpl. unfold mbind, M_bind. rewrite deliver_get by done.
    rewrite Hr, get_eq. simpl default. simpl isArray.
    change (GetMoreCb (VEntity <$> foundEntities r) (nest founds (UserFn f)))
      with (nest ((VEntity <$> foundEntities r) :: founds) (UserFn f)).
    rewrite IH by done.
    destruct w; unfold lookupRequest; wunfold.
    f_equal; f_equal; [by rewrite <- app_assoc|].
    do 2 f_equal. rewrite join_app, (fmap_app VEntity). simpl.
    by rewrite app_nil_r, <- app_assoc.
Qed.

(** C2.  A batch [get] whose responses defer keys for any number of rounds
    asks again, each time for exactly the keys the last response deferred,
    until a response defers none; it then calls back once, with the
    entities found in the first response followed by those of each later
    round, in order. *)
Theorem get_deferred_rounds (ks : list Key) (f : nat) (rounds : list Resp)
    (final : Resp) (w : World) :
  inflight w = [] →
  Forall (λ r, has_length (deferred r) = true) rounds →
  has_length (deferred final) = false →
  let r := (get (Many ks) (Some (UserFn f)) ;;
            run (Decoded <$> (rounds ++ [final]))) w in
  r.1 = Ok tt
  ∧ trace r.2 =
      trace w ++
      [Called f None
         [VArray (VEntity <$> mjoin (foundEntities <$> (rounds ++ [final])))]]
  ∧ sent r.2 =
      sent w ++ lookupRequest w ks
             :: ((λ r, lookupRequest w (deferredKeys r)) <$> rounds)
  ∧ inflight r.2 = [].
Proof.
  intros Hw Hrounds Hfinal r. subst r. unfold mbind, M_bind.
  rewrite get_eq. simpl isArray. simpl default.
  change (UserFn f) with (nest [] (UserFn f)).
  rewrite run_rounds by done.
  destruct w; unfold lookupRequest; wunfold.
  by rewrite <- app_assoc.
Qed.

(** A batch [get] in flight, whatever replies arrive: either it is still
    waiting and has called nothing, or it has called its callback once, with
    an error alone or with one array. *)
Lemma run_get_chain (base : Closure) :
  (∀ err args (w : World),
     (apply base err args w).1 = Ok tt
     ∧ inflight (apply base err args w).2 = inflight w) →
  ∀ replies founds (w : World),
    inflight w = [] →
    let W0 := set_inflight (λ l, l ++ [GetCb true (nest founds base)]) w in
    (∃ w1, run replies W0 = (Ok tt, w1) ∧ trace w1 = trace w)
    ∨ (∃ err args w0,
         batchResult err args ∧ trace w0 = trace w
         ∧ run replies W0 = apply base err args w0).
Proof.
  intros Hbase replies.
  assert (Hdone : ∀ rest err args (w0 : World),
            inflight w0 = [] →
            (apply base err args ;; run rest) w0 = apply base err args w0).
  { intros rest err args w0 Hw0. unfold mbind, M_bind.
    destruct (Hbase err args w0) as [H1 H2].
    destruct (apply base err args w0) as [[[]|e] w1]; [|done].
    simpl in *. apply run_idle. by rewrite H2. }
  induction replies as [|r rest IH]; intros founds w Hw W0.
  - left. exists W0. split; [done|]. by destruct w.
  - subst W0. simpl run. unfold mbind, M_bind.
    rewrite deliver_get by done.
    destruct r as [e|resp].
    + right. exists (Some e), [], (set_inflight (λ _, []) w).
      split; [left; by exists e|]. split; [by destruct w|].
      rewrite apply_nest_err.
      apply (Hdone rest (Some e) [] (set_inflight (λ _, []) w)).
      by destruct w.
    + destruct (has_length (deferred resp)).
      * rewrite get_eq. simpl default. simpl isArray.
        change (GetMoreCb (VEntity <$> foundEntities resp) (nest founds base))
          with (nest ((VEntity <$> foundEntities resp) :: founds) base).
        destruct (IH ((VEntity <$> foundEntities resp) :: founds)
                    (set_sent (λ l, l ++
                       [lookupRequest (set_inflight (λ _, []) w)
                          (toArray (Many (deferredKeys resp)))])
                       (set_inflight (λ _, []) w)))
          as [(w1 & Hrun & Ht)|(err & args & w0 & Hshape & Ht & Hrun)].
        { by destruct w. }
        { left. exists w1. split; [done|]. rewrite Ht. by destruct w. }
        { right. exists err, args, w0. split; [done|]. split; [|done].
          rewrite Ht. by destruct w. }
      * right. eexists None, _, (set_inflight (λ _, []) w).
        split; [right; by eexists|]. split; [by destruct w|].
        rewrite apply_nest_ok.
        apply (Hdone rest None _ (set_inflight (λ _, []) w)).
        by destruct w.
Qed.

(** C4.  [get] with one key calls back with a single value, an entity or
    undefined, never an array.  [get] with an array of keys, whatever
    replies arrive, calls back at most once, with an error alone or with an
    array; with an array of one key and a response that defers nothing it
    calls back with the array of what was found. *)
Theorem get_result_shape (f : nat) (w : World) :
  inflight w = [] →
  (∀ k reply,
     let r := (get (One k) (Some (UserFn f)) ;; deliver reply) w in
     r.1 = Ok tt
     ∧ match reply with
       | Failed e => trace r.2 = trace w ++ [Called f (Some e) []]
       | Decoded resp =>
           ∃ v, trace r.2 = trace w ++ [Called f None [v]]
                ∧ v = hd VUndefined (VEntity <$> foundEntities resp)
                ∧ (v = VUndefined ∨ ∃ e, v = VEntity e)
                ∧ ∀ l, v ≠ VArray l
       end)
  ∧ (∀ ks replies,
       let r := (get (Many ks) (Some (UserFn f)) ;; run replies) w in
       r.1 = Ok tt
       ∧ ∃ evs, trace r.2 = trace w ++ evs
                ∧ (evs = []
                   ∨ ∃ err args, evs = [Called f err args]
                                 ∧ batchResult err args))
  ∧ (∀ k resp,
       has_length (deferred resp) = false →
       let r := (get (Many [k]) (Some (UserFn f)) ;; deliver (Decoded resp)) w in
       r.1 = Ok tt
       ∧ trace r.2 =
           trace w ++ [Called f None [VArray (VEntity <$> foundEntities resp)]]).
Proof.
  intros Hw. split; [|split].
  - intros k reply r. subst r. unfold mbind, M_bind. rewrite get_eq.
    simpl isArray. simpl default. rewrite deliver_parked by done.
    destruct reply as [e|resp].
    + simpl. munfold. split; [done|]. by destruct w.
    + cbn [apply]. munfold. unfold mbind, M_bind. simpl.
      split; [done|]. eexists. split; [by destruct w|]. split; [done|].
      unfold foundEntities.
      destruct (formatArray (found resp)) as [|e es]; simpl.
      * split; [by left|done].
      * split; [right; by exists e|done].
  - intros ks replies r. subst r. unfold mbind, M_bind. rewrite get_eq.
    simpl isArray. simpl default.
    change (UserFn f) with (nest [] (UserFn f)).
    destruct (run_get_chain (UserFn f) (λ _ _ _, conj eq_refl eq_refl)
                replies [] (set_sent (λ l, l ++ [lookupRequest w (toArray (Many ks))]) w))
      as [(w1 & -> & Ht)|(err & args & w0 & Hshape & Ht & ->)].
    { by destruct w. }
    + split; [done|]. exists []. simpl. rewrite Ht, app_nil_r.
      split; [by destruct w|by left].
    + split; [done|]. exists [Called f err args]. simpl. rewrite Ht.
      split; [by destruct w|]. right. by exists err, args.
  - intros k resp Hd r. subst r. unfold mbind, M_bind. rewrite get_eq.
    simpl isArray. simpl default.
    change (UserFn f) with (nest [] (UserFn f)).
    rewrite deliver_get by (by destruct w). rewrite Hd.
    simpl. munfold. split; [done|]. by destruct w.
Qed.

End Lookup.

Section Callbacks.
Context {W : Wire} {C : Codec}.

(** A parked callback that does nothing when it is called: whatever replies
    arrive, nothing is thrown and nothing is reported. *)
Lemma run_parked_quiet (c : Closure) :
  (∀ r (w : World),
     match r with
     | Failed e => apply c (Some e) []
     | Decoded resp => apply c None [VResp resp]
     end w = (Ok tt, w)) →
  ∀ replies (w : World),
    inflight w = [] →
    ∃ w1, run replies (set_inflight (λ l, l ++ [c]) w) = (Ok tt, w1)
          ∧ trace w1 = trace w.
Proof.
  intros Hc replies w Hw. destruct replies as [|r rest].
  - eexists. split; [done|]. by destruct w.
  - simpl. unfold mbind, M_bind. rewrite deliver_parked, Hc by done.
    rewrite run_idle by (by destruct w).
    eexists. split; [done|]. by destruct w.
Qed.

Lemma reconcile_ok es idx :
  Forall (λ j, (j < length es)%nat) idx →
  ∀ gks i (w : World),
    (i + length gks ≤ length idx)%nat →
    (reconcile es idx gks i w).1 = Ok tt.
Proof.
  intros Hidx gks. induction gks as [|g gks IH]; intros i w Hlen; [done|].
  rewrite reconcile_cons. simpl in Hlen.
  destruct (lookup_lt_is_Some_2 idx i) as [j Hj]; [lia|].
  destruct (lookup_lt_is_Some_2 es j) as [d Hd].
  { by apply (proj1 (Forall_lookup _ _) Hidx i j). }
  rewrite Hj, Hd. apply IH. lia.
Qed.

(** C10.  [get] and [delete] called without a callback behave as if they
    had been given util.noop: whatever replies arrive, nothing is thrown and
    no function is called.  [save] parks or queues its continuation with the
    callback exactly as given; the continuation calls it on an error, on a
    missing response and after reconciling a well-formed response, and when
    none was given that call is a TypeError. *)
Theorem omitted_callback (ks : OneOrMany Key) (entities : OneOrMany Descriptor)
    (w : World) :
  let es := toArray entities in
  let idx := acc_insertIndexes (classified (keys w) es) in
  get ks None w = get ks (Some Noop) w
  ∧ delete_ ks None w = delete_ ks (Some Noop) w
  ∧ (inflight w = [] →
     ∀ replies,
       let g := (get ks None ;; run replies) w in
       let d := (delete_ ks None ;; run replies) w in
       g.1 = Ok tt ∧ trace g.2 = trace w ∧ d.1 = Ok tt ∧ trace d.2 = trace w)
  ∧ (∀ cb, let s := save entities cb w in
       match id w with
       | Some _ =>
           requestCallbacks_ s.2 = requestCallbacks_ w ++ [OnCommit es idx cb]
       | None => inflight s.2 = inflight w ++ [OnCommit es idx cb]
       end)
  ∧ (∀ (f : option nat) err args w',
       is_Some err ∨ truthy (hd VUndefined args) = false →
       apply (OnCommit es idx (UserFn <$> f)) err args w' =
       match f with
       | Some f => (Ok tt, set_trace (λ t, t ++ [Called f err []]) w')
       | None => (Throw TypeError, w')
       end)
  ∧ (∀ (f : option nat) resp mr w',
       mutation_result resp = Some mr →
       (length (default [] (insert_auto_id_key mr)) ≤ length idx)%nat →
       let c := apply (OnCommit es idx (UserFn <$> f)) None [VResp resp] w' in
       match f with
       | Some f => c.1 = Ok tt ∧ trace c.2 = trace w' ++ [Called f None []]
       | None => c.1 = Throw TypeError ∧ trace c.2 = trace w'
       end).
Proof.
  intros es idx. split; [done|]. split; [done|].
  split; [|split; [|split]].
  - intros Hw replies g d. subst g d. unfold mbind, M_bind.
    rewrite get_eq, delete__eq. simpl default.
    assert (Hg : ∃ w1, run replies
        (set_inflight (λ l, l ++ [GetCb (isArray ks) Noop])
           (set_sent (λ l, l ++ [lookupRequest w (toArray ks)]) w))
        = (Ok tt, w1) ∧ trace w1 = trace w).
    { destruct ks as [k|ks]; simpl isArray.
      - destruct (run_parked_quiet (GetCb false Noop)) with
          (replies := replies)
          (w := set_sent (λ l, l ++ [lookupRequest w (toArray (One k))]) w)
          as (w1 & Hrun & Ht).
        + intros [e|resp] w0; [done|]. cbn [apply]. munfold. by simpl.
        + by destruct w.
        + exists w1. split; [done|]. rewrite Ht. by destruct w.
      - change Noop with (nest [] Noop).
        destruct (run_get_chain Noop (λ _ _ _, conj eq_refl eq_refl) replies []
                    (set_sent (λ l, l ++ [lookupRequest w (toArray (Many ks))]) w))
          as [(w1 & Hrun & Ht)|(err & args & w0 & _ & Ht & Hrun)].
        + by destruct w.
        + exists w1. split; [done|]. rewrite Ht. by destruct w.
        + exists w0. split; [done|]. rewrite Ht. by destruct w. }
    destruct Hg as (w1 & -> & Ht).
    split; [done|]. split; [done|].
    destruct (id w) eqn:Hid.
    + rewrite run_idle by (by destruct w). split; [done|]. by destruct w.
    + rewrite makeReq__eq.
      match goal with
      | |- context [run replies (set_inflight _ ?w0)] =>
          destruct (run_parked_quiet Noop
                      (λ r _, match r with
                              | Failed _ => eq_refl
                              | Decoded _ => eq_refl
                              end) replies w0)
            as (w2 & Hrun & Ht2); [by destruct w|]
      end.
      rewrite Hrun. split; [done|]. simpl. rewrite Ht2. by destruct w.
  - intros cb s. subst s. rewrite save_eq. fold es idx.
    destruct (id w); [done|]. by rewrite makeReq__eq.
  - intros f err args w' H. by apply onCommit_failure.
  - intros f resp mr w' Hmr Hlen c. subst c.
    rewrite (onCommit_success _ _ _ _ _ _ _ Hmr).
    unfold mbind, M_bind.
    pose proof (reconcile_ok es idx (positions_valid _ es)
                  (default [] (insert_auto_id_key mr)) 0%nat w' Hlen) as Hok.
    destruct (reconcile_frame es idx (default [] (insert_auto_id_key mr))
                0%nat w') as (K' & HK' & _).
    destruct (reconcile es idx (default [] (insert_auto_id_key mr)) 0%nat w')
      as [[[]|e] w1]; [|done].
    simpl in HK'. subst w1. rewrite call_given.
    destruct f; simpl; split; done.
Qed.

(** C7.  [allocateIds] given a complete key throws at once and leaves the
    world as it was: nothing is written, nothing is parked.  Given an
    incomplete key it writes one allocateIds request whose key list is the
    encoded key repeated n times, and when the response arrives it calls
    back with the decoded keys in the order of the response. *)
Theorem allocateIds_incomplete_only (incompleteKey : Key) (n : Z) (f : nat)
    (w : World) :
  let callback := Some (UserFn f) in
  if isKeyComplete incompleteKey then
    allocateIds incompleteKey n callback w
    = (Throw (Error "An incomplete key should be provided."), w)
  else
    ∃ r, dispatches (allocateIds incompleteKey n callback) w r
                    (AllocCb callback)
         ∧ message r = "AllocateIdsRequest"
         ∧ b_key (req_body r)
           = Some (replicate (Z.to_nat n) (keyToKeyProto incompleteKey))
         ∧ (∀ resp w',
              apply (AllocCb callback) None [VResp resp] w'
              = (Ok tt,
                 set_trace (λ t, t ++
                   [Called f None
                      [VArray (VKey <$> (keyFromKeyProto
                                           <$> default [] (r_key resp)))]]) w'))
         ∧ (∀ e w',
              apply (AllocCb callback) (Some e) [] w'
              = (Ok tt, set_trace (λ t, t ++ [Called f (Some e) []]) w')).
Proof.
  intros callback. unfold allocateIds.
  destruct (isKeyComplete incompleteKey); [done|].
  eexists. split; [apply makeReq__eq|].
  split; [done|]. split; [simpl; by destruct (id w)|].
  split; [|done]. intros resp w'. done.
Qed.

End Callbacks.

Section Stream.
Context {W : Wire} {C : Codec}.

Lemma pushResults_eq entities : ∀ n (w : World),
  pushResults entities n w =
  (Ok (if decide (0 ≤ n ≤ Z.of_nat (length entities)) then 0
       else n - Z.of_nat (length entities)),
   set_trace (λ t, t ++ (Push <$> (if decide (0 ≤ n)
                                   then take (Z.to_nat n) entities
                                   else entities))) w).
Proof.
  induction entities as [|e es IH]; intros n w.
  - simpl pushResults. munfold.
    assert ((if decide (0 ≤ n ≤ Z.of_nat (length (@nil Entity))) then 0
             else n - Z.of_nat (length (@nil Entity))) = n) as ->.
    { simpl length. case_decide; lia. }
    assert ((if decide (0 ≤ n) then take (Z.to_nat n) [] else [])
            = @nil Entity) as ->.
    { case_decide; [apply take_nil|done]. }
    destruct w; wunfold. by rewrite app_nil_r.
  - simpl pushResults. destruct (n =? 0) eqn:Hn.
    + apply Z.eqb_eq in Hn as ->. munfold.
      rewrite decide_True by (simpl length; lia).
      rewrite decide_True by lia.
      destruct w; wunfold. by rewrite app_nil_r.
    + apply Z.eqb_neq in Hn. munfold. unfold mbind, M_bind. rewrite IH.
      assert ((if decide (0 ≤ n - 1 ≤ Z.of_nat (length es)) then 0
               else n - 1 - Z.of_nat (length es))
              = (if decide (0 ≤ n ≤ Z.of_nat (length (e :: es))) then 0
                 else n - Z.of_nat (length (e :: es)))) as ->.
      { simpl length. repeat case_decide; lia. }
      assert (Push e :: (Push <$> (if decide (0 ≤ n - 1)
                                   then take (Z.to_nat (n - 1)) es else es))
              = Push <$> (if decide (0 ≤ n)
                          then take (Z.to_nat n) (e :: es) else e :: es))
        as Hp.
      { destruct (decide (0 ≤ n)) as [H0|H0].
        - rewrite decide_True by lia.
          replace (Z.to_nat n) with (S (Z.to_nat (n - 1))) by lia. done.
        - by rewrite decide_False by lia. }
      rewrite <- Hp. destruct w; wunfold. by rewrite <- app_assoc.
Qed.

(** A continuing page reaches the callback of the stream. *)
Lemma deliver_page q req n p (w : World) :
  inflight w = [] → continuing p →
  deliver p (set_inflight (λ l, l ++ [QueryCb q req n None]) w) =
  (left ← pushResults (pageEntities p) n;
   if left =? 0 then emit StreamEnd
   else runQuery_ q (nextPage q req (pageCursor p)) left None)
    (set_inflight (λ _, []) w).
Proof.
  intros Hw ((resp & b & -> & Hb) & He & Hc).
  rewrite deliver_parked by done. simpl in He, Hc. rewrite Hb in He, Hc.
  cbn [apply]. munfold. simpl.
  rewrite Hb. simpl.
  rewrite (bool_decide_eq_false_2 _ Hc).
  rewrite bool_decide_eq_false_2; [done|].
  by destruct (formatArray (entity_result b)).
Qed.

Lemma deliver_endOfResults q req n p (w : World) :
  inflight w = [] → endOfResults p →
  deliver p (set_inflight (λ l, l ++ [QueryCb q req n None]) w) =
  (Ok tt, set_trace (λ t, t ++ [StreamEnd]) (set_inflight (λ _, []) w)).
Proof.
  intros Hw ((resp & b & -> & Hb) & He).
  rewrite deliver_parked by done. simpl in He. rewrite Hb in He.
  cbn [apply]. munfold. simpl. rewrite Hb. simpl.
  destruct He as [He|He].
  - rewrite He. simpl. by rewrite orb_true_r.
  - by rewrite (bool_decide_eq_true_2 _ He).
Qed.

(** The stream with a budget of [n], its first page requested, fed the
    continuing pages [ps] and then the end of results. *)
Lemma stream_run q term rest :
  endOfResults term →
  ∀ ps n req (w : World),
    inflight w = [] → Forall continuing ps → 0 ≤ n →
    let r := run (ps ++ term :: rest)
                 (set_inflight (λ l, l ++ [QueryCb q req n None]) w) in
    r.1 = Ok tt
    ∧ trace r.2 =
        trace w ++ (Push <$> take (Z.to_nat n) (mjoin (pageEntities <$> ps)))
                ++ [StreamEnd]
    ∧ inflight r.2 = []
    ∧ (∀ pre p post,
         ps = pre ++ p :: post →
         n ≤ Z.of_nat (length (mjoin (pageEntities <$> (pre ++ [p])))) →
         (length (sent r.2) ≤ length (sent w) + length pre)%nat).
Proof.
  intros Hterm ps. induction ps as [|p ps IH]; intros n req w Hw Hps Hn r;
    subst r.
  - simpl app. simpl run. unfold mbind, M_bind.
    rewrite deliver_endOfResults by done.
    rewrite run_idle by (by destruct w).
    simpl. rewrite take_nil. split; [done|]. split; [by destruct w|].
    split; [by destruct w|]. intros [|??] ?? ?; discriminate.
  - apply Forall_cons in Hps as [Hp Hps].
    simpl app. simpl run. unfold mbind, M_bind.
    rewrite deliver_page by done. unfold mbind, M_bind.
    rewrite pushResults_eq. rewrite (decide_True _ _ Hn).
    simpl fmap. simpl mjoin.
    destruct (decide (0 ≤ n ≤ Z.of_nat (length (pageEntities p)))) as [Hex|Hex].
    + simpl. munfold. rewrite run_idle by (by destruct w).
      rewrite take_app_le by lia.
      simpl. split; [done|]. split.
      { destruct w; wunfold. by rewrite <- app_assoc. }
      split; [by destruct w|]. intros pre p0 post _ _. destruct w; wunfold. lia.
    + assert ((n - Z.of_nat (length (pageEntities p)) =? 0) = false) as ->.
      { apply Z.eqb_neq. lia. }
      unfold runQuery_. rewrite makeReq__eq.
      match goal with
      | |- context [run _ (set_inflight _ ?w0)] =>
          destruct (IH (n - Z.of_nat (length (pageEntities p)))
                      (nextPage q req (pageCursor p)) w0)
            as (H1 & H2 & H3 & H4); [by destruct w|done|lia|]
      end.
      split; [exact H1|]. split; [|split; [exact H3|]].
      * rewrite H2. rewrite take_app, (take_ge (pageEntities p)) by lia.
        replace (Z.to_nat (n - Z.of_nat (length (pageEntities p))))
          with (Z.to_nat n - length (pageEntities p))%nat by lia.
        destruct w; wunfold. rewrite fmap_app. by rewrite <- !app_assoc.
      * intros pre p0 post Heq Hle. destruct pre as [|p1 pre].
        { simpl in Heq. injection Heq as <- _.
          simpl in Hle. rewrite app_nil_r in Hle. lia. }
        simpl in Heq. injection Heq as <- Heq.
        etrans; [apply (H4 pre p0 post Heq)|].
        -- simpl in Hle. rewrite length_app in Hle. unfold fmap. lia.
        -- destruct w; wunfold. rewrite length_app. simpl. lia.
Qed.

Lemma runQuery_stream_eq q (w : World) :
  runQuery q None w =
  (Ok tt,
   set_readers (λ l, l ++
     [RunQueryFn q
        (mkBody None None (Some (mkReadOptions None))
           (Some (queryToQueryProto q))
           match q_namespace q with
           | Some ns => if bool_decide (ns = "") then None else Some ns
           | None => None
           end None None)
        (limitVal q) None]) w).
Proof. done. Qed.

Lemma reading_eq c (w : World) :
  readers w = [] →
  reading (set_readers (λ l, l ++ [c]) w) =
  (apply c None [] ;; mret tt) (set_readers (λ _, []) w).
Proof.
  intros Hr. unfold reading. munfold. simpl. rewrite Hr. simpl.
  destruct w; wunfold. by subst.
Qed.

(** C3, as amended.  The stream of a query with limit L, once read, fed
    any number of pages that hold entities and a cursor and then a page that
    lacks either: it emits the first L of the entities of the former pages,
    or all of them when they are fewer, that is min(L, available) entities,
    emits nothing of the page that lacks a cursor, and ends; and once the
    pages fetched hold L entities or more, no page after them is requested,
    whatever the last one held beyond the limit. *)
Theorem runQuery_stream_limit q (ps : list Reply) term rest (w : World) :
  readers w = [] → inflight w = [] → 0 ≤ limitVal q →
  Forall continuing ps → endOfResults term →
  let L := Z.to_nat (limitVal q) in
  let available : list Entity := mjoin (pageEntities <$> ps) in
  let r := (runQuery q None ;; reading ;; run (ps ++ term :: rest)) w in
  r.1 = Ok tt
  ∧ (∃ out, trace r.2 = trace w ++ (Push <$> out) ++ [StreamEnd]
            ∧ out = take L available
            ∧ length out = (L `min` length available)%nat)
  ∧ (∀ pre p post,
       ps = pre ++ p :: post →
       (L ≤ length (mjoin (pageEntities <$> (pre ++ [p]))))%nat →
       (length (sent r.2) ≤ length (sent w) + length pre + 1)%nat).
Proof.
  intros Hr Hw HL Hps Hterm L available r. subst r.
  unfold mbind, M_bind. rewrite runQuery_stream_eq, reading_eq by done.
  cbn [apply]. unfold runQuery_, mbind, M_bind. rewrite makeReq__eq.
  unfold mret, M_ret.
  match goal with
  | |- context [run _ (set_inflight (λ l, l ++ [QueryCb _ ?req _ _]) ?w0)] =>
      destruct (stream_run q term rest Hterm ps (limitVal q) req w0)
        as (H1 & H2 & _ & H4); [by destruct w|done|done|]
  end.
  split; [exact H1|]. split.
  - exists (take L available). split; [|split; [done|apply length_take]].
    rewrite H2. by destruct w.
  - intros pre p post Heq Hle. etrans; [apply (H4 pre p post Heq); lia|].
    destruct w; wunfold. rewrite length_app. simpl. lia.
Qed.

End Stream.

(** * Further properties of the request layer *)

Section MoreLookup.
Context {W : Wire} {C : Codec}.

Lemma run_rounds_failed (f : nat) (e : Err) (rest : list Reply)
    (rounds : list Resp) :
  Forall (λ r, has_length (deferred r) = true) rounds →
  ∀ founds (w : World),
    inflight w = [] →
    run ((Decoded <$> rounds) ++ Failed e :: rest)
        (set_inflight (λ l, l ++ [GetCb true (nest founds (UserFn f))]) w)
    = (Ok tt,
       set_trace (λ t, t ++ [Called f (Some e) []])
         (set_sent (λ l, l ++ ((λ r, lookupRequest w (deferredKeys r)) <$> rounds))
            (set_inflight (λ _, []) w))).
Proof.
  intros Hrounds.
  induction Hrounds as [|r rs Hr _ IH]; intros founds w Hw.
  - simpl. unfold mbind, M_bind. rewrite deliver_get by done.
    rewrite apply_nest_err. simpl. munfold.
    rewrite run_idle by (by destruct w).
    destruct w; wunfold. by rewrite !app_nil_r.
  - simpl. unfold mbind, M_bind. rewrite deliver_get by done.
    rewrite Hr, get_eq. simpl default. simpl isArray.
    change (GetMoreCb (VEntity <$> foundEntities r) (nest founds (UserFn f)))
      with (nest ((VEntity <$> foundEntities r) :: founds) (UserFn f)).
    rewrite IH by done.
    destruct w; unfold lookupRequest; wunfold.
    f_equal; f_equal. by rewrite <- app_assoc.
Qed.

(** X1.  A batch [get] that meets an error, at the first lookup or after
    any number of rounds of deferral, calls back once with the error alone:
    what the earlier rounds found is dropped, no further lookup is written
    and later replies are ignored. *)
Theorem get_error_aborts (ks : list Key) (f : nat) (rounds : list Resp)
    (e : Err) (rest : list Reply) (w : World) :
  inflight w = [] →
  Forall (λ r, has_length (deferred r) = true) rounds →
  let r := (get (Many ks) (Some (UserFn f)) ;;
            run ((Decoded <$> rounds) ++ Failed e :: rest)) w in
  r.1 = Ok tt
  ∧ trace r.2 = trace w ++ [Called f (Some e) []]
  ∧ length (sent r.2) = (length (sent w) + 1 + length rounds)%nat
  ∧ inflight r.2 = [].
Proof.
  intros Hw Hrounds r. subst r. unfold mbind, M_bind.
  rewrite get_eq. simpl isArray. simpl default.
  change (UserFn f) with (nest [] (UserFn f)).
  rewrite run_rounds_failed by done.
  destruct w; wunfold. rewrite !length_app, length_fmap. simpl.
  repeat split; try done; lia.
Qed.

(** X2.  A [get] with a single key never asks again: when the response
    defers keys and found nothing, it calls back with undefined after the
    one lookup, and nothing is left in flight. *)
Theorem get_single_deferred (k : Key) (f : nat) (resp : Resp) (w : World) :
  inflight w = [] →
  foundEntities resp = [] →
  let r := (get (One k) (Some (UserFn f)) ;; deliver (Decoded resp)) w in
  r.1 = Ok tt
  ∧ trace r.2 = trace w ++ [Called f None [VUndefined]]
  ∧ sent r.2 = sent w ++ [lookupRequest w [k]]
  ∧ inflight r.2 = [].
Proof.
  intros Hw Hf r. subst r. unfold mbind, M_bind. rewrite get_eq.
  simpl isArray. simpl default. rewrite deliver_parked by done.
  cbn [apply]. munfold. simpl. unfold foundEntities in Hf. rewrite Hf.
  simpl. by destruct w.
Qed.

End MoreLookup.

Section MoreQuery.
Context {W : Wire} {C : Codec}.

Lemma runQuery_page_eq q cb (w : World) :
  is_function (Some cb) = true →
  runQuery q (Some cb) w =
  (Ok tt,
   set_inflight (λ l, l ++ [QueryCb q (firstPage q) (limitVal q) (Some cb)])
     (set_sent (λ l, l ++ [queryRequest w (firstPage q)]) w)).
Proof.
  intros Hf. unfold runQuery. rewrite Hf. unfold runQuery_.
  rewrite makeReq__eq. unfold queryRequest, firstPage. simpl.
  by destruct (id w).
Qed.

(** X3.  [runQuery] with a callback asks for one page only.  It calls back
    with the error, or with the entities of the page and its cursor, which
    is the empty string when the page has none; whatever the cursor, no
    second request is written and nothing is left in flight. *)
Theorem runQuery_page_mode q (f : nat) (reply : Reply) (rest : list Reply)
    (w : World) :
  inflight w = [] →
  (∃ e, reply = Failed e) ∨ isPage reply →
  let r := (runQuery q (Some (UserFn f)) ;; run (reply :: rest)) w in
  r.1 = Ok tt
  ∧ trace r.2 =
      trace w ++
      [match reply with
       | Failed e => Called f (Some e) []
       | Decoded _ =>
           Called f None [VArray (VEntity <$> pageEntities reply);
                          VString (pageCursor reply)]
       end]
  ∧ sent r.2 = sent w ++ [queryRequest w (firstPage q)]
  ∧ inflight r.2 = [] ∧ readers r.2 = readers w.
Proof.
  intros Hw Hreply r. subst r. unfold mbind, M_bind.
  rewrite runQuery_page_eq by done. simpl run. unfold mbind, M_bind.
  rewrite deliver_parked by done.
  destruct Hreply as [[e ->]|(resp & b & -> & Hb)].
  - simpl. munfold. rewrite run_idle by (by destruct w). by destruct w.
  - cbn [apply]. munfold. simpl. rewrite Hb. simpl.
    rewrite run_idle by (by destruct w). by destruct w.
Qed.

(** X4.  In streaming mode nothing is requested until the stream is read:
    [runQuery] only registers the listener.  The first read writes the one
    request for the first page, and a second read does nothing. *)
Theorem runQuery_stream_lazy q (w : World) :
  readers w = [] →
  let s := runQuery q None w in
  let r1 := (runQuery q None ;; reading) w in
  let r2 := (runQuery q None ;; reading ;; reading) w in
  (s.1 = Ok tt ∧ sent s.2 = sent w ∧ inflight s.2 = inflight w
   ∧ trace s.2 = trace w)
  ∧ (r1.1 = Ok tt ∧ sent r1.2 = sent w ++ [queryRequest w (firstPage q)]
     ∧ inflight r1.2 =
         inflight w ++ [QueryCb q (firstPage q) (limitVal q) None]
     ∧ readers r1.2 = [])
  ∧ r2 = r1.
Proof.
  intros Hr s r1 r2. subst s r1 r2. unfold mbind, M_bind.
  rewrite runQuery_stream_eq, reading_eq by done.
  cbn [apply]. unfold runQuery_, mbind, M_bind. rewrite makeReq__eq.
  unfold mret, M_ret, reading. munfold. unfold queryRequest, firstPage.
  simpl. destruct w; wunfold. subst. by destruct id0.
Qed.

Lemma runQuery__eq q req n cb (w : World) :
  runQuery_ q req n cb w =
  (Ok tt, set_inflight (λ l, l ++ [QueryCb q req n cb])
            (set_sent (λ l, l ++ [queryRequest w req]) w)).
Proof.
  unfold runQuery_. rewrite makeReq__eq. unfold queryRequest. simpl.
  by destruct (id w).
Qed.

(** The stream fed continuing pages that do not use up its budget, and
    then a reply [term] that ends it with the events [tail]. *)
Lemma stream_feed q term tail rest :
  (∀ req n (w : World),
     inflight w = [] →
     deliver term (set_inflight (λ l, l ++ [QueryCb q req n None]) w)
     = (Ok tt, set_trace (λ t, t ++ tail) (set_inflight (λ _, []) w))) →
  ∀ ps n req (w : World),
    inflight w = [] → Forall continuing ps →
    ¬ (0 ≤ n ≤ Z.of_nat (length (mjoin (pageEntities <$> ps)))) →
    run (ps ++ term :: rest)
        (set_inflight (λ l, l ++ [QueryCb q req n None]) w)
    = (Ok tt,
       set_trace (λ t, t ++ (Push <$> mjoin (pageEntities <$> ps)) ++ tail)
         (set_sent (λ l, l ++
             ((λ p, queryRequest w (nextPage q req (pageCursor p))) <$> ps))
            (set_inflight (λ _, []) w))).
Proof.
  intros Hterm ps. induction ps as [|p ps IH]; intros n req w Hw Hps Hn.
  - simpl app. simpl run. unfold mbind, M_bind. rewrite Hterm by done.
    rewrite run_idle by (by destruct w).
    destruct w; wunfold. by rewrite app_nil_r.
  - apply Forall_cons in Hps as [Hp Hps].
    assert (Hlen : length (mjoin (pageEntities <$> p :: ps))
                   = (length (pageEntities p)
                      + length (mjoin (pageEntities <$> ps)))%nat).
    { simpl. by rewrite length_app. }
    rewrite Hlen in Hn.
    simpl app. simpl run. unfold mbind, M_bind.
    rewrite deliver_page by done. unfold mbind, M_bind.
    rewrite pushResults_eq.
    rewrite (decide_False (P := 0 ≤ n ≤ Z.of_nat (length (pageEntities p))))
      by lia.
    assert ((n - Z.of_nat (length (pageEntities p)) =? 0) = false) as ->.
    { apply Z.eqb_neq. lia. }
    assert ((if decide (0 ≤ n) then take (Z.to_nat n) (pageEntities p)
             else pageEntities p) = pageEntities p) as ->.
    { case_decide; [|done]. apply take_ge. lia. }
    rewrite runQuery__eq.
    match goal with
    | |- context [run _ (set_inflight _ ?w0)] =>
        rewrite (IH (n - Z.of_nat (length (pageEntities p)))
                   (nextPage q req (pageCursor p)) w0);
          [|by destruct w|done|lia]
    end.
    destruct w; unfold queryRequest, nextPage; wunfold.
    f_equal; f_equal; [by rewrite <- app_assoc|].
    rewrite fmap_app. by rewrite <- !app_assoc.
Qed.


(** X6.  With a negative limit, or one larger than what the pages hold,
    the stream emits every entity of every page, in order, and ends at the
    first page that lacks entities or a cursor. *)
Theorem runQuery_stream_all q (ps : list Reply) term (rest : list Reply)
    (w : World) :
  readers w = [] → inflight w = [] → Forall continuing ps →
  endOfResults term →
  ¬ (0 ≤ limitVal q ≤ Z.of_nat (length (mjoin (pageEntities <$> ps)))) →
  let r := (runQuery q None ;; reading ;; run (ps ++ term :: rest)) w in
  r.1 = Ok tt
  ∧ trace r.2 =
      trace w ++ (Push <$> mjoin (pageEntities <$> ps)) ++ [StreamEnd]
  ∧ inflight r.2 = [].
Proof.
  intros Hr Hw Hps Hterm HL r. subst r.
  unfold mbind, M_bind. rewrite runQuery_stream_eq, reading_eq by done.
  cbn [apply]. unfold mbind, M_bind. rewrite runQuery__eq.
  unfold mret, M_ret.
  rewrite (stream_feed q term [StreamEnd] rest).
  - by destruct w.
  - intros req n w0 Hw0. by apply deliver_endOfResults.
  - by destruct w.
  - done.
  - done.
Qed.

(** X7.  While the limit is not reached, each page after the first is
    requested with the query restarted at the cursor of the page before it
    and offset 0, and with the rest of the first request (read options,
    partition) unchanged: one request per page received. *)
Theorem runQuery_stream_requests q (ps : list Reply) term (rest : list Reply)
    (w : World) :
  readers w = [] → inflight w = [] → Forall continuing ps →
  endOfResults term →
  ¬ (0 ≤ limitVal q ≤ Z.of_nat (length (mjoin (pageEntities <$> ps)))) →
  let r := (runQuery q None ;; reading ;; run (ps ++ term :: rest)) w in
  sent r.2 =
    sent w ++ queryRequest w (firstPage q)
           :: ((λ p, queryRequest w
                       (mkBody None None (Some (mkReadOptions None))
                          (Some (queryToQueryProto
                                   (offset (start q (pageCursor p)) 0)))
                          (b_partition_id (firstPage q)) None None)) <$> ps).
Proof.
  intros Hr Hw Hps Hterm HL r. subst r.
  unfold mbind, M_bind. rewrite runQuery_stream_eq, reading_eq by done.
  cbn [apply]. unfold mbind, M_bind. rewrite runQuery__eq.
  unfold mret, M_ret.
  rewrite (stream_feed q term [StreamEnd] rest).
  - destruct w; unfold queryRequest, nextPage, firstPage; wunfold.
    by rewrite <- app_assoc.
  - intros req n w0 Hw0. by apply deliver_endOfResults.
  - by destruct w.
  - done.
  - done.
Qed.

Lemma deliver_stream_step q req n r (w : World) :
  inflight w = [] →
  let d := deliver r (set_inflight (λ l, l ++ [QueryCb q req n None]) w) in
  (inflight d.2 = [] ∧ sent d.2 = sent w)
  ∨ (∃ req' n' w2,
       d = (Ok tt, set_inflight (λ l, l ++ [QueryCb q req' n' None]) w2)
       ∧ inflight w2 = [] ∧ length (sent w2) = S (length (sent w))).
Proof.
  intros Hw d. subst d. rewrite deliver_parked by done.
  destruct r as [e|resp].
  - left. simpl. munfold. by destruct w.
  - cbn [apply]. munfold. simpl.
    destruct (batch resp) as [b|]; [|left; by destruct w]. simpl.
    destruct (bool_decide _ || bool_decide _); [left; by destruct w|].
    rewrite pushResults_eq.
    destruct (_ =? 0); [left; by destruct w|].
    right. rewrite runQuery__eq. do 3 eexists. split; [reflexivity|].
    destruct w; wunfold. split; [done|]. rewrite length_app. simpl. lia.
Qed.

Lemma stream_one_in_flight q replies : ∀ req n (w : World),
  inflight w = [] →
  let r := run replies (set_inflight (λ l, l ++ [QueryCb q req n None]) w) in
  (length (inflight r.2) ≤ 1)%nat
  ∧ (length (sent r.2) ≤ length (sent w) + length replies)%nat.
Proof.
  induction replies as [|r rest IH]; intros req n w Hw.
  - simpl. destruct w; wunfold. subst. simpl. lia.
  - simpl run. unfold mbind, M_bind.
    destruct (deliver_stream_step q req n r w Hw)
      as [[Hi Hs]|(req' & n' & w2 & -> & Hi & Hs)].
    + destruct (deliver r _) as [[[]|e] w1]; simpl in *.
      * rewrite run_idle by done. simpl. rewrite Hi, Hs. simpl. lia.
      * rewrite Hi, Hs. simpl. lia.
    + destruct (IH req' n' w2 Hi) as [H1 H2]. simpl. split; [exact H1|].
      simpl in H2. lia.
Qed.

(** X8.  Whatever replies arrive, well formed or not, the stream never has
    more than one page request outstanding, and it writes at most one
    request per reply it receives after the first. *)
Theorem runQuery_stream_one_in_flight q (replies : list Reply) (w : World) :
  readers w = [] → inflight w = [] →
  let r := (runQuery q None ;; reading ;; run replies) w in
  (length (inflight r.2) ≤ 1)%nat
  ∧ (length (sent r.2) ≤ length (sent w) + 1 + length replies)%nat.
Proof.
  intros Hr Hw r. subst r.
  unfold mbind, M_bind. rewrite runQuery_stream_eq, reading_eq by done.
  cbn [apply]. unfold mbind, M_bind. rewrite runQuery__eq.
  unfold mret, M_ret.
  match goal with
  | |- context [run _ (set_inflight (λ l, l ++ [QueryCb _ ?req ?n _]) ?w0)] =>
      destruct (stream_one_in_flight q replies req n w0) as [H1 H2];
        [by destruct w|]
  end.
  split; [exact H1|]. etrans; [exact H2|].
  destruct w; wunfold. rewrite length_app. simpl. lia.
Qed.

End MoreQuery.

Section MoreMutation.
Context {W : Wire} {C : Codec}.

Lemma reconcile_surplus es idx :
  Forall (λ j, (j < length es)%nat) idx →
  ∀ gks i (w : World),
    (i ≤ length idx)%nat → (length idx < i + length gks)%nat →
    (reconcile es idx gks i w).1 = Throw TypeError.
Proof.
  intros Hidx gks. induction gks as [|g gks IH]; intros i w Hi Hlen.
  - simpl in Hlen. lia.
  - rewrite reconcile_cons.
    destruct (idx !! i) as [j|] eqn:Hj; [|done].
    destruct (lookup_lt_is_Some_2 es j) as [d Hd].
    { by apply (proj1 (Forall_lookup _ _) Hidx i j). }
    rewrite Hd. apply IH.
    + apply lookup_lt_Some in Hj. lia.
    + simpl in Hlen. lia.
Qed.

(** X9.  When the commit response carries more generated keys than [save]
    recorded positions, the continuation stops with a TypeError at the
    first surplus key: the caller's function is never called, and the data
    records are not touched. *)
Theorem onCommit_surplus_keys entities (f : option nat) resp mr (w w' : World) :
  let es := toArray entities in
  let idx := acc_insertIndexes (classified (keys w) es) in
  mutation_result resp = Some mr →
  (length idx < length (default [] (insert_auto_id_key mr)))%nat →
  let c := apply (OnCommit es idx (UserFn <$> f)) None [VResp resp] w' in
  c.1 = Throw TypeError ∧ trace c.2 = trace w' ∧ recs c.2 = recs w'.
Proof.
  intros es idx Hmr Hlen c. subst c.
  rewrite (onCommit_success _ _ _ _ _ _ _ Hmr). unfold mbind, M_bind.
  pose proof (reconcile_surplus es idx (positions_valid _ es)
                (default [] (insert_auto_id_key mr)) 0%nat w'
                ltac:(lia) ltac:(simpl; lia)) as Hthrow.
  destruct (reconcile_frame es idx (default [] (insert_auto_id_key mr))
              0%nat w') as (K' & HK' & _).
  destruct (reconcile es idx (default [] (insert_auto_id_key mr)) 0%nat w')
    as [[[]|e] w1]; [done|].
  simpl in *. subst w1. by injection Hthrow as ->.
Qed.

(** X10.  A commit response with no mutation result makes the continuation
    fail with a TypeError and change nothing.  A response whose result has
    no generated keys, absent or empty, is a plain success: the caller's
    function is called with no error and no key object is written. *)
Theorem onCommit_without_keys es idx (f : nat) resp (w : World) :
  let c := apply (OnCommit es idx (Some (UserFn f))) None [VResp resp] w in
  match mutation_result resp with
  | None => c = (Throw TypeError, w)
  | Some mr =>
      default [] (insert_auto_id_key mr) = [] →
      c = (Ok tt, set_trace (λ t, t ++ [Called f None []]) w)
  end.
Proof.
  intros c. subst c.
  destruct (mutation_result resp) as [mr|] eqn:Hmr.
  - intros Hnone.
    change (Some (UserFn f)) with (UserFn <$> Some f).
    rewrite (onCommit_success _ _ (Some f) _ _ _ _ Hmr), Hnone.
    done.
  - cbn [apply]. munfold. simpl. by rewrite Hmr.
Qed.

Lemma perform_queued o (w : World) t :
  id w = Some t →
  ∃ R', perform o w =
        (Ok tt,
         set_requestCallbacks_ (λ l, l ++ queuedCallbacks (keys w) o)
           (set_requests_ (λ l, l ++ [queuedRequest (keys w) o])
              (set_recs (λ _, R') w))).
Proof.
  intros Hid. destruct o as [entities callback|ks callback]; simpl.
  - rewrite save_eq, Hid. by eexists.
  - rewrite delete__eq, Hid. exists (recs w).
    destruct w; wunfold. by rewrite app_nil_r.
Qed.

(** X11.  Under a transaction, a sequence of saves and deletes queues one
    request per call, in call order, and one continuation per save only, so
    the two queues fall out of step as soon as a delete is queued; nothing
    is written to the wire and no key object changes. *)
Theorem transaction_queues (os : list Op) (w : World) t :
  id w = Some t →
  let r := performAll os w in
  r.1 = Ok tt
  ∧ requests_ r.2 = requests_ w ++ (queuedRequest (keys w) <$> os)
  ∧ requestCallbacks_ r.2 =
      requestCallbacks_ w ++ mjoin (queuedCallbacks (keys w) <$> os)
  ∧ sent r.2 = sent w ∧ inflight r.2 = inflight w ∧ keys r.2 = keys w.
Proof.
  revert w. induction os as [|o os IH]; intros w Hid r; subst r.
  - simpl. by rewrite !app_nil_r.
  - simpl performAll. unfold mbind, M_bind.
    destruct (perform_queued o w t Hid) as (R' & ->).
    match goal with
    | |- context [performAll os ?w0] =>
        destruct (IH w0) as (H1 & H2 & H3 & H4 & H5 & H6); [by destruct w|]
    end.
    split; [exact H1|]. rewrite H2, H3, H4, H5, H6.
    destruct w; wunfold. by rewrite <- !app_assoc.
Qed.

(** X12.  A [delete] that is dispatched at once sends the encoded keys in
    the order given and hands the reply to the caller's function as it
    comes: the error alone, or no error and the decoded commit response.
    It writes no key object and no data record. *)
Theorem delete_completion (ks : OneOrMany Key) (f : nat) (reply : Reply)
    (w : World) :
  id w = None → inflight w = [] →
  let r := (delete_ ks (Some (UserFn f)) ;; deliver reply) w in
  r.1 = Ok tt
  ∧ (∃ q, sent r.2 = sent w ++ [q]
          ∧ b_mutation (req_body q) =
            Some (mkMutation None None (Some (keyToKeyProto <$> toArray ks))))
  ∧ trace r.2 =
      trace w ++ [match reply with
                  | Failed e => Called f (Some e) []
                  | Decoded resp => Called f None [VResp resp]
                  end]
  ∧ keys r.2 = keys w ∧ recs r.2 = recs w ∧ inflight r.2 = [].
Proof.
  intros Hid Hw r. subst r. unfold mbind, M_bind.
  rewrite delete__eq, Hid. simpl default. rewrite makeReq__eq.
  rewrite deliver_parked by done.
  destruct reply as [e|resp]; simpl; munfold; rewrite Hid;
    (split; [done|]); (split; [eexists; split; [done|done]|]);
    by destruct w.
Qed.

End MoreMutation.

Section MoreDispatcher.
Context {W : Wire} {C : Codec}.


(** X23.  [allocateIds] does not guard its arguments beyond the key: with
    a count of zero or less it still sends a request, for no key at all,
    and with no callback the reply, whatever it is, ends in a TypeError
    with nothing reported. *)
Theorem allocateIds_edges (incompleteKey : Key) (n : Z) (reply : Reply)
    (w : World) :
  isKeyComplete incompleteKey = false → inflight w = [] →
  (n ≤ 0 →
   ∀ callback,
     ∃ q, sent (allocateIds incompleteKey n callback w).2 = sent w ++ [q]
          ∧ message q = "AllocateIdsRequest"
          ∧ b_key (req_body q) = Some [])
  ∧ (let r := deliver reply (allocateIds incompleteKey n None w).2 in
     r.1 = Throw TypeError ∧ trace r.2 = trace w).
Proof.
  intros Hk Hw. unfold allocateIds. rewrite Hk. split.
  - intros Hn callback. rewrite makeReq__eq. eexists. split; [done|].
    split; [done|]. simpl. replace (Z.to_nat n) with 0%nat by lia.
    by destruct (id w).
  - rewrite makeReq__eq. simpl snd. rewrite deliver_parked by done.
    destruct reply as [e|resp]; cbn [apply]; munfold; simpl;
      split; try done; by destruct w.
Qed.

End MoreDispatcher.

(** * Properties of the storage entry point *)

Section StorageProps.
Context {Bucket : Type} (newBucket : option Storage.JsVal → Bucket).

Lemma extend_name (o : gmap string Storage.JsVal) k v :
  Storage.extend o {[ k := v ]} = <[k := v]> o.
Proof. unfold Storage.extend. by rewrite insert_union_singleton_l. Qed.

(** X14.  [createBucket] without a name throws before anything is sent or
    written.  With a name and a metadata object it sends one POST whose
    body is the metadata with its name replaced by the given one, and the
    caller's metadata object itself now carries that name; with the
    callback in second place the body is the name alone and no object of
    the caller is written. *)
Theorem createBucket_request (name : option Storage.JsVal) (n : Storage.JsVal)
    (l : loc) (f : nat) (w : Storage.World (Bucket := Bucket)) :
  (Storage.truthy name = false →
   ∀ metadata callback,
     Storage.createBucket name metadata callback w
     = (Throw (Error "A name is required to create a bucket."), w))
  ∧ (Storage.truthy (Some n) = true →
     let body := <["name" := n]> (Storage.objects w !!! l) in
     Storage.createBucket (Some n) (Storage.AObject l) (Storage.AFunction f) w
     = (Ok tt,
        Storage.mkWorld (Storage.projectId w)
          (<[l := body]> (Storage.objects w))
          (Storage.sent w ++
             [Storage.mkReqOpts "POST" (Storage.projectQuery w)
                Storage.STORAGE_BASE_URL (Some body)])
          (Storage.inflight w ++
             [Storage.CreateCb (Some n) (Storage.AFunction f)])
          (Storage.trace w))
     ∧ Storage.createBucket (Some n) (Storage.AFunction f) Storage.AUndefined w
       = (Ok tt,
          Storage.mkWorld (Storage.projectId w) (Storage.objects w)
            (Storage.sent w ++
               [Storage.mkReqOpts "POST" (Storage.projectQuery w)
                  Storage.STORAGE_BASE_URL (Some {[ "name" := n ]})])
            (Storage.inflight w ++
               [Storage.CreateCb (Some n) (Storage.AFunction f)])
            (Storage.trace w))).
Proof.
  split.
  - intros Hn metadata callback. unfold Storage.createBucket. by rewrite Hn.
  - intros Hn body. unfold Storage.createBucket. rewrite Hn. simpl.
    rewrite extend_name. split; [done|].
    unfold Storage.makeReq_. rewrite extend_name.
    by rewrite insert_empty.
Qed.

(** X15.  When the reply to [createBucket] arrives, the caller's function
    gets the error alone, or no error and a bucket made for the name given,
    with the response as its metadata. *)
Theorem createBucket_completion (n : Storage.JsVal) (f : nat)
    (reply : Storage.Reply) (w : Storage.World (Bucket := Bucket)) :
  Storage.truthy (Some n) = true → Storage.inflight w = [] →
  let s :=
    (Storage.createBucket (Some n) (Storage.AFunction f) Storage.AUndefined w).2 in
  let r := Storage.deliver newBucket reply s in
  r.1 = Ok tt
  ∧ Storage.trace r.2 =
      Storage.trace w ++
      [match reply with
       | Storage.Failed e => Storage.Called f (Some e) []
       | Storage.Replied resp =>
           Storage.Called f None
             [Storage.VCreated (newBucket (Some n)) resp]
       end]
  ∧ Storage.inflight r.2 = [] ∧ Storage.sent r.2 = Storage.sent s.
Proof.
  intros Hn Hw s r. subst r s.
  destruct (createBucket_request (Some n) n 0%nat f w) as [_ H].
  destruct (H Hn) as [_ ->]. unfold Storage.deliver. simpl. rewrite Hw.
  simpl. by destruct reply.
Qed.

Lemma withProject_lookup (w : Storage.World (Bucket := Bucket)) q :
  Storage.withProject w q !! "project"
  = (if Storage.truthy (q !! "project") then q !! "project"
     else Storage.projectId w)
  ∧ ∀ k, k ≠ "project" → Storage.withProject w q !! k = q !! k.
Proof.
  unfold Storage.withProject.
  destruct (Storage.truthy (q !! "project")); [done|].
  destruct (Storage.projectId w) as [v|].
  - split; [apply lookup_insert_eq|].
    intros k Hk. by apply lookup_insert_ne.
  - split; [apply lookup_delete_eq|].
    intros k Hk. by apply lookup_delete_ne.
Qed.

(** X16.  [getBuckets] given a query object sends one GET with no body
    whose query string is that object with the project filled in: a project
    the caller set (and that is truthy) is kept, otherwise it is the
    project of the storage object; every other property is kept, and the
    caller's query object itself is updated in the same way. *)
Theorem getBuckets_request (l : loc) (f : nat)
    (w : Storage.World (Bucket := Bucket)) :
  let q := Storage.objects w !!! l in
  let r := Storage.getBuckets (Storage.AObject l) (Storage.AFunction f) w in
  ∃ q',
    r = (Ok tt,
         Storage.mkWorld (Storage.projectId w) (<[l := q']> (Storage.objects w))
           (Storage.sent w ++
              [Storage.mkReqOpts "GET" q' Storage.STORAGE_BASE_URL None])
           (Storage.inflight w ++
              [Storage.BucketsCb (Storage.Callers l) (Storage.AFunction f)])
           (Storage.trace w))
    ∧ q' !! "project"
      = (if Storage.truthy (q !! "project") then q !! "project"
         else Storage.projectId w)
    ∧ ∀ k, k ≠ "project" → q' !! k = q !! k.
Proof.
  intros q r. exists (Storage.withProject w q). split; [done|].
  apply withProject_lookup.
Qed.

(** X17.  When the reply to [getBuckets] arrives, the caller's function
    gets one bucket per item of the response, in order, each made for the
    item's id and carrying the item as metadata (none when the response has
    no items), and a next query: null when the response has no page token,
    otherwise the query as sent plus that token. *)
Theorem getBuckets_completion (l : loc) (f : nat) (resp : Storage.Json)
    (w : Storage.World (Bucket := Bucket)) :
  Storage.inflight w = [] →
  let s := (Storage.getBuckets (Storage.AObject l) (Storage.AFunction f) w).2 in
  let q' := Storage.objects s !!! l in
  let r := Storage.deliver newBucket (Storage.Replied resp) s in
  ∃ nextQuery,
    r.1 = Ok tt
    ∧ Storage.trace r.2 =
        Storage.trace w ++
        [Storage.Called f None
           [Storage.VBuckets
              ((λ item, (newBucket (item !! "id"), item))
                 <$> default [] (Storage.items resp));
            nextQuery]]
    ∧ Storage.objects r.2 = Storage.objects s
    ∧ if Storage.truthy (Storage.fields resp !! "nextPageToken") then
        ∃ nq, nextQuery = Storage.VObject nq
              ∧ nq !! "pageToken" = Storage.fields resp !! "nextPageToken"
              ∧ ∀ k, k ≠ "pageToken" → nq !! k = q' !! k
      else nextQuery = Storage.VNull.
Proof.
  intros Hw s q' r. subst r q' s.
  unfold Storage.getBuckets, Storage.makeReq_, Storage.deliver. simpl.
  rewrite Hw. simpl. rewrite lookup_total_insert_eq.
  eexists. split; [done|]. split; [reflexivity|]. split; [done|].
  destruct (Storage.fields resp !! "nextPageToken") as [token|] eqn:Ht;
    [|done].
  change (match token with
          | Storage.JNull => false
          | Storage.JBool b => b
          | Storage.JNum n => negb (n =? 0)
          | Storage.JStr s => negb (bool_decide (s = ""))
          end) with (Storage.truthy (Some token)).
  destruct (Storage.truthy (Some token)) eqn:Htr; [|done].
  eexists. split; [done|]. rewrite extend_name.
  split; [apply lookup_insert_eq|].
  intros k Hk. rewrite lookup_insert_ne; [|by intros <-].
  unfold Storage.extend. by rewrite (right_id_L ∅ (∪)).
Qed.

(** X18.  Paging composes: the next query handed to the caller, passed
    back to [getBuckets] on the same storage object, is sent as it is, so
    the page token and every property of the first query, the project
    included, carry over to the next request. *)
Theorem getBuckets_next_page (q : gmap string Storage.JsVal)
    (token : Storage.JsVal) (l : loc) (f : nat)
    (w w2 : Storage.World (Bucket := Bucket)) :
  Storage.projectId w2 = Storage.projectId w →
  let nq :=
    Storage.extend (Storage.extend ∅ (Storage.withProject w q))
                   {[ "pageToken" := token ]} in
  Storage.objects w2 !!! l = nq →
  let r := Storage.getBuckets (Storage.AObject l) (Storage.AFunction f) w2 in
  Storage.sent r.2 =
    Storage.sent w2 ++
    [Storage.mkReqOpts "GET" nq Storage.STORAGE_BASE_URL None].
Proof.
  intros Hp nq Hl r. subst r.
  unfold Storage.getBuckets, Storage.makeReq_. simpl. rewrite Hl.
  do 3 f_equal.
  assert (Hproj : nq !! "project" = Storage.withProject w q !! "project").
  { unfold nq. rewrite extend_name. rewrite lookup_insert_ne; [|done].
    unfold Storage.extend. by rewrite (right_id_L ∅ (∪)). }
  unfold Storage.withProject at 1.
  destruct (Storage.truthy (nq !! "project")) eqn:Htr; [done|].
  destruct (withProject_lookup w q) as [Hwp _].
  rewrite Hproj in Htr. rewrite Hp.
  destruct (Storage.truthy (q !! "project")) eqn:Hq.
  { rewrite Hwp in Htr. congruence. }
  rewrite Hwp in Hproj.
  destruct (Storage.projectId w) as [v|].
  - by apply insert_id.
  - by apply delete_id.
Qed.

End StorageProps.

(** * Properties of the static file server *)

Section AppProps.

Lemma handler_cases (p : string) (st : App.State) :
  (∃ c, App.files st !! p = Some c ∧ c ≠ ""
        ∧ App.handler p st = (App.Sent c, st))
  ∨ ((App.files st !! p = None ∨ App.files st !! p = Some "")
     ∧ App.handler p st =
       match App.disk st !! (App.path +:+ p) with
       | Some content =>
           (App.Sent content,
            App.mkState (<[p := content]> (App.files st)) (App.disk st))
       | None => (App.Thrown, st)
       end).
Proof.
  unfold App.handler. destruct (App.files st !! p) as [c|]; [|right; auto].
  destruct (decide (c = "")) as [->|Hne].
  - right. split; [by right|done].
  - left. exists c. by rewrite (bool_decide_eq_false_2 _ Hne).
Qed.

Lemma handler_keeps (p p' c : string) (st : App.State) :
  App.files st !! p = Some c → c ≠ "" →
  App.files (App.handler p' st).2 !! p = Some c.
Proof.
  intros Hc Hne.
  destruct (handler_cases p' st) as [(c' & _ & _ & ->)|[Hmiss ->]]; [done|].
  assert (p' ≠ p) by (intros ->; destruct Hmiss; congruence).
  destruct (App.disk st !! _); simpl; [|done].
  by rewrite lookup_insert_ne.
Qed.

Lemma steps_keep (p c : string) (l : list App.Step) : ∀ st,
  App.files st !! p = Some c → c ≠ "" →
  App.files (App.steps l st) !! p = Some c.
Proof.
  induction l as [|s l IH]; intros st Hc Hne; [done|].
  simpl. apply IH; [|done].
  destruct s as [p'|n c'|n]; simpl; [|done|done].
  by apply handler_keeps.
Qed.

Lemma handler_hit (p c : string) (st : App.State) :
  App.files st !! p = Some c → c ≠ "" → App.handler p st = (App.Sent c, st).
Proof.
  intros Hc Hne. unfold App.handler. rewrite Hc.
  by rewrite (bool_decide_eq_false_2 _ Hne).
Qed.

(** After a request that was answered, the cache holds what was sent. *)
Lemma handler_caches (p c : string) (st st1 : App.State) :
  App.handler p st = (App.Sent c, st1) → App.files st1 !! p = Some c.
Proof.
  intros Hserved.
  destruct (handler_cases p st) as [(c' & Hc & _ & Heq)|[_ Heq]];
    rewrite Heq in Hserved.
  - by injection Hserved as <- <-.
  - destruct (App.disk st !! _); [|done].
    injection Hserved as <- <-. simpl. apply lookup_insert_eq.
Qed.

(** X19.  Once a request for a path has been answered with non-empty
    content, every later request for that path gets the same content from
    the cache, whatever other requests are served and whatever is written
    to or removed from the disk in between. *)
Theorem served_content_is_pinned (p c : string) (st st1 : App.State)
    (l : list App.Step) :
  App.handler p st = (App.Sent c, st1) → c ≠ "" →
  App.handler p (App.steps l st1) = (App.Sent c, App.steps l st1).
Proof.
  intros Hserved Hne. apply handler_hit; [|done].
  apply steps_keep; [|done]. by eapply handler_caches.
Qed.

(** X20.  A file that was empty when it was served is not pinned: the
    cache entry is falsy, so the next request reads the disk again and
    answers with what is there by then. *)
Theorem empty_content_is_not_pinned (p c' : string) (st st1 : App.State) :
  App.handler p st = (App.Sent "", st1) →
  let st2 := App.step (App.Write (App.path +:+ p) c') st1 in
  (App.handler p st2).1 = App.Sent c'.
Proof.
  intros Hserved st2. apply handler_caches in Hserved.
  destruct (handler_cases p st2) as [(c & Hc & Hne & _)|[_ ->]].
  - subst st2. simpl in Hc. congruence.
  - subst st2. simpl. by rewrite lookup_insert_eq.
Qed.

(** X21.  A request for a file that is neither cached nor on disk throws
    and leaves the cache as it was, so the failure is not remembered: once
    the file is written, the next request serves it. *)
Theorem missing_file_is_not_cached (p c : string) (st : App.State) :
  App.files st !! p = None →
  App.disk st !! (App.path +:+ p) = None →
  App.handler p st = (App.Thrown, st)
  ∧ (App.handler p (App.step (App.Write (App.path +:+ p) c) st)).1
    = App.Sent c.
Proof.
  intros Hc Hd. unfold App.handler. simpl. rewrite Hc, Hd. simpl.
  split; [done|]. by rewrite lookup_insert_eq.
Qed.

Lemma startup_preloads (d : gmap string string) :
  match d !! "./twitter-bootstrap/TwitterBootstrap.html",
        d !! "./twitter-bootstrap/index.html" with
  | Some t, Some i =>
      App.startup d =
      Some (App.mkState (<["/index.html" := i]>
                           (<["/TwitterBootstrap.html" := t]> ∅)) d)
  | _, _ => App.startup d = None
  end.
Proof.
  unfold App.startup. simpl.
  change (App.path +:+ "TwitterBootstrap.html")
    with "./twitter-bootstrap/TwitterBootstrap.html".
  change (App.path +:+ "index.html") with "./twitter-bootstrap/index.html".
  destruct (d !! "./twitter-bootstrap/TwitterBootstrap.html") as [t|];
    [|done].
  by destruct (d !! "./twitter-bootstrap/index.html").
Qed.

(** X22.  Start-up fails when one of the two pages is not on disk.  When it
    succeeds, a page that was not empty is served from then on, under its
    request path, with the content it had at start-up, whatever happens to
    the disk afterwards. *)
Theorem preloaded_pages_are_pinned (d : gmap string string) (st : App.State)
    (l : list App.Step) :
  App.startup d = Some st →
  ∃ t i,
    d !! "./twitter-bootstrap/TwitterBootstrap.html" = Some t
    ∧ d !! "./twitter-bootstrap/index.html" = Some i
    ∧ (t ≠ "" →
       App.handler "/TwitterBootstrap.html" (App.steps l st)
       = (App.Sent t, App.steps l st))
    ∧ (i ≠ "" →
       App.handler "/index.html" (App.steps l st)
       = (App.Sent i, App.steps l st)).
Proof.
  intros Hst. pose proof (startup_preloads d) as H.
  destruct (d !! "./twitter-bootstrap/TwitterBootstrap.html") as [t|];
    [|congruence].
  destruct (d !! "./twitter-bootstrap/index.html") as [i|]; [|congruence].
  rewrite Hst in H. injection H as ->.
  exists t, i. split; [done|]. split; [done|]. split; intros Hne.
  - apply handler_hit; [|done]. apply steps_keep; [|done]. simpl.
    rewrite lookup_insert_ne by done. apply lookup_insert_eq.
  - apply handler_hit; [|done]. apply steps_keep; [|done]. simpl.
    apply lookup_insert_eq.
Qed.

End AppProps.

(** * Concrete runs *)

Section Runs.
Import Demo.

(** The example of C1: saving [A; B; C] with A and C incomplete, the store
    answering with generated keys for A and C in that order. *)
Example save_ABC_reconciled :
  let w := dataset K R in
  let r := (save (Many [entA; entB; entC]) (Some (UserFn 0%nat)) ;;
            deliver (Decoded committed)) w in
  r.1 = Ok tt
  ∧ keys r.2 !! 0%nat = Some (mkKey None [("Company", Some 7)])
  ∧ keys r.2 !! 1%nat = Some keyB
  ∧ keys r.2 !! 2%nat =
      Some (mkKey (Some "ns") [("Company", Some 123); ("Product", Some 8)])
  ∧ trace r.2 = [Called 0%nat None []].
Proof. vm_compute. repeat split; reflexivity. Qed.

(** A commit that fails: the error reaches the caller, the keys stay. *)
Lemma save_commit_failure_witness :
  let r := (save (Many [entA; entB; entC]) (Some (UserFn 0%nat)) ;;
            deliver (Failed "unavailable")) (dataset K R) in
  keys r.2 = K ∧ trace r.2 = [Called 0%nat (Some "unavailable") []].
Proof.
  destruct (save_commit_failure (Many [entA; entB; entC]) 0%nat
              (Some "unavailable") [] (dataset K R)) as [_ H].
  { left. by eexists. }
  destruct (H eq_refl eq_refl "unavailable") as (_ & HK & Ht & _).
  split; [exact HK|exact Ht].
Defined.

(** C8 as stated fails: saving a descriptor whose data is an explicit list
    rewrites the caller's record, although its key is complete. *)
Lemma save_frame_counterexample :
  recs (save (One entB) (Some (UserFn 0%nat)) (dataset K R)).2 !! 0%nat
  = Some (mkDataRec "rating" (Converted (10, Some false)) None)
  ∧ recs (dataset K R) !! 0%nat = Some rating
  ∧ recs (save (One entB) (Some (UserFn 0%nat)) (dataset K R)).2 !! 0%nat
    ≠ recs (dataset K R) !! 0%nat.
Proof. vm_compute. repeat split; [reflexivity..|discriminate]. Qed.

(** C2 at three rounds of deferral. *)
Lemma get_deferred_rounds_witness :
  let r := (get (Many [keyB; keyB; keyB; keyB]) (Some (UserFn 0%nat)) ;;
            run (Decoded <$> [deferring [1]; deferring [2]; deferring [3];
                              settled [4]])) (dataset K R) in
  trace r.2 =
    [Called 0%nat None [VArray [VEntity 1; VEntity 2; VEntity 3; VEntity 4]]]
  ∧ length (sent r.2) = 4%nat.
Proof.
  destruct (get_deferred_rounds [keyB; keyB; keyB; keyB] 0%nat
              [deferring [1]; deferring [2]; deferring [3]] (settled [4])
              (dataset K R) eq_refl) as (_ & Ht & Hs & _).
  { repeat constructor. }
  { reflexivity. }
  split; [exact Ht|]. exact (f_equal length Hs).
Defined.

(** No round, and one round. *)
Example get_deferred_rounds_0_1 :
  trace ((get (Many [keyB]) (Some (UserFn 0%nat)) ;;
          run [Decoded (settled [4])]) (dataset K R)).2
  = [Called 0%nat None [VArray [VEntity 4]]]
  ∧ trace ((get (Many [keyB; keyB]) (Some (UserFn 0%nat)) ;;
            run [Decoded (deferring [1]); Decoded (settled [4])])
             (dataset K R)).2
    = [Called 0%nat None [VArray [VEntity 1; VEntity 4]]].
Proof. split; reflexivity. Qed.

(** C4 on a single key and on an array of one key. *)
Lemma get_result_shape_witness :
  trace ((get (One keyB) (Some (UserFn 0%nat)) ;;
          deliver (Decoded (settled [4]))) (dataset K R)).2
  = [Called 0%nat None [VEntity 4]]
  ∧ trace ((get (Many [keyB]) (Some (UserFn 0%nat)) ;;
            deliver (Decoded (settled [4]))) (dataset K R)).2
    = [Called 0%nat None [VArray [VEntity 4]]].
Proof.
  destruct (get_result_shape 0%nat (dataset K R) eq_refl) as (H1 & _ & H3).
  destruct (H1 keyB (Decoded (settled [4]))) as (_ & v & Ht & -> & _).
  destruct (H3 keyB (settled [4]) eq_refl) as (_ & Ht3).
  split; [exact Ht|exact Ht3].
Defined.

(** C3 as stated fails: a page that holds two entities and no cursor ends
    the stream, and neither entity is emitted, although the limit is 5. *)
Lemma runQuery_stream_counterexample :
  let p := pageOf [1; 2] None in
  let r := (runQuery (limited 5) None ;; reading ;; run [p]) (dataset ∅ ∅) in
  pageEntities p = [1; 2]
  ∧ trace r.2 = [StreamEnd]
  ∧ length (pushed (trace r.2))
    ≠ (Z.to_nat (limitVal (limited 5)) `min` length (pageEntities p))%nat.
Proof. vm_compute. repeat split; [reflexivity..|discriminate]. Qed.

(** The amended C3 with limit 3 on pages of two entities: the second page
    is the last one requested, and its second entity is dropped. *)
Lemma runQuery_stream_limit_witness :
  let ps := [pageOf [1; 2] (Some "c1"); pageOf [3; 4] (Some "c2");
             pageOf [5; 6] (Some "c3")] in
  let r := (runQuery (limited 3) None ;; reading ;;
            run (ps ++ pageOf [] None :: [])) (dataset ∅ ∅) in
  trace r.2 = [Push 1; Push 2; Push 3; StreamEnd]
  ∧ (length (sent r.2) ≤ 2)%nat.
Proof.
  destruct (runQuery_stream_limit (W := wire) (C := codec) (limited 3)
              [pageOf [1; 2] (Some "c1"); pageOf [3; 4] (Some "c2");
               pageOf [5; 6] (Some "c3")]
              (pageOf [] None) [] (dataset ∅ ∅) eq_refl eq_refl)
    as (_ & (out & Ht & -> & _) & Hs).
  { vm_compute. discriminate. }
  { repeat constructor; try (by repeat eexists); discriminate. }
  { split; [by repeat eexists|]. by left. }
  split; [exact Ht|].
  apply (Hs [pageOf [1; 2] (Some "c1")] (pageOf [3; 4] (Some "c2"))
            [pageOf [5; 6] (Some "c3")] eq_refl).
  vm_compute. lia.
Defined.

End Runs.
(** * Concrete runs of the further properties *)

Section MoreRuns.
Import Demo Samples.

Lemma get_error_aborts_witness :
  trace ((get (Many [keyB; keyB]) (Some (UserFn 0%nat)) ;;
          run ((Decoded <$> [deferring [1]]) ++ Failed "boom" :: []))
           (dataset K R)).2
  = [Called 0%nat (Some "boom") []].
Proof.
  destruct (get_error_aborts [keyB; keyB] 0%nat [deferring [1]] "boom" []
              (dataset K R) eq_refl) as (_ & Ht & _).
  { repeat constructor. }
  exact Ht.
Defined.

Lemma get_single_deferred_witness :
  trace ((get (One keyB) (Some (UserFn 0%nat)) ;;
          deliver (Decoded (deferring []))) (dataset K R)).2
  = [Called 0%nat None [VUndefined]].
Proof.
  destruct (get_single_deferred (W := wire) (C := codec) keyB 0%nat
              (deferring []) (dataset K R)
              eq_refl eq_refl) as (_ & Ht & _).
  exact Ht.
Defined.

Lemma runQuery_page_mode_witness :
  trace ((runQuery (limited 5) (Some (UserFn 0%nat)) ;;
          run [pageOf [1; 2] None; pageOf [3] None]) (dataset ∅ ∅)).2
  = [Called 0%nat None [VArray [VEntity 1; VEntity 2]; VString ""]].
Proof.
  destruct (runQuery_page_mode (W := wire) (C := codec) (limited 5) 0%nat
              (pageOf [1; 2] None) [pageOf [3] None] (dataset ∅ ∅) eq_refl)
    as (_ & Ht & _).
  { right. by repeat eexists. }
  exact Ht.
Defined.

Lemma runQuery_stream_lazy_witness :
  sent (runQuery (limited 5) None (dataset ∅ ∅)).2 = []
  ∧ length (sent ((runQuery (limited 5) None ;; reading ;; reading)
                    (dataset ∅ ∅)).2) = 1%nat.
Proof.
  destruct (runQuery_stream_lazy (W := wire) (C := codec) (limited 5)
              (dataset ∅ ∅) eq_refl) as ((_ & Hs & _) & (_ & Hs1 & _) & H2).
  split; [exact Hs|]. rewrite H2. exact (f_equal length Hs1).
Defined.


Lemma runQuery_stream_all_witness :
  trace ((runQuery (limited (-1)) None ;; reading ;;
          run ([pageOf [1; 2] (Some "c1"); pageOf [3] (Some "c2")]
               ++ pageOf [] (Some "c3") :: [])) (dataset ∅ ∅)).2
  = [Push 1; Push 2; Push 3; StreamEnd].
Proof.
  destruct (runQuery_stream_all (W := wire) (C := codec) (limited (-1))
              [pageOf [1; 2] (Some "c1"); pageOf [3] (Some "c2")]
              (pageOf [] (Some "c3")) [] (dataset ∅ ∅) eq_refl eq_refl)
    as (_ & Ht & _).
  { repeat constructor; try (by repeat eexists); discriminate. }
  { split; [by repeat eexists|]. by left. }
  { cbn. lia. }
  exact Ht.
Defined.

Lemma runQuery_stream_requests_witness :
  b_query <$> (req_body <$>
    sent ((runQuery (limited (-1)) None ;; reading ;;
           run ([pageOf [1; 2] (Some "c1"); pageOf [3] (Some "c2")]
                ++ pageOf [] (Some "c3") :: [])) (dataset ∅ ∅)).2)
  = [Some (mkQuery (-1) None None 0);
     Some (mkQuery (-1) None (Some "c1") 0);
     Some (mkQuery (-1) None (Some "c2") 0)].
Proof.
  rewrite (runQuery_stream_requests (W := wire) (C := codec) (limited (-1))
             [pageOf [1; 2] (Some "c1"); pageOf [3] (Some "c2")]
             (pageOf [] (Some "c3")) [] (dataset ∅ ∅) eq_refl eq_refl).
  - reflexivity.
  - repeat constructor; try (by repeat eexists); discriminate.
  - split; [by repeat eexists|]. by left.
  - cbn. lia.
Defined.

Lemma runQuery_stream_one_in_flight_witness :
  let r := (runQuery (limited 5) None ;; reading ;;
            run [pageOf [1; 2] (Some "c1"); Failed "boom"; pageOf [3] None])
             (dataset ∅ ∅) in
  (length (inflight r.2) ≤ 1)%nat.
Proof.
  destruct (runQuery_stream_one_in_flight (W := wire) (C := codec) (limited 5)
              [pageOf [1; 2] (Some "c1"); Failed "boom"; pageOf [3] None]
              (dataset ∅ ∅) eq_refl eq_refl) as [H _].
  exact H.
Defined.

(** Three generated keys for two incomplete keys. *)
Lemma onCommit_surplus_keys_witness :
  let resp :=
    mkResp [] None (Some (mkMutationResult (Some [genA; genC; genA])))
           None None in
  (apply (OnCommit [entA; entB; entC] [0%nat; 2%nat] (Some (UserFn 0%nat)))
         None [VResp resp] (dataset K R)).1
  = Throw TypeError.
Proof.
  intros resp.
  destruct (onCommit_surplus_keys (Many [entA; entB; entC]) (Some 0%nat) resp
              (mkMutationResult (Some [genA; genC; genA]))
              (dataset K R) (dataset K R) eq_refl) as (H & _).
  { vm_compute. lia. }
  exact H.
Defined.

Lemma transaction_queues_witness :
  let r := performAll [SaveOp (One entA) (Some (UserFn 0%nat));
                       DeleteOp (One keyB) (Some (UserFn 1%nat));
                       SaveOp (One entC) None] (transaction K R) in
  length (requests_ r.2) = 3%nat
  ∧ length (requestCallbacks_ r.2) = 2%nat
  ∧ sent r.2 = [].
Proof.
  destruct (transaction_queues
              [SaveOp (One entA) (Some (UserFn 0%nat));
               DeleteOp (One keyB) (Some (UserFn 1%nat));
               SaveOp (One entC) None] (transaction K R) "tx1" eq_refl)
    as (_ & H2 & H3 & H4 & _).
  split; [exact (f_equal length H2)|].
  split; [exact (f_equal length H3)|exact H4].
Defined.

Lemma delete_completion_witness :
  trace ((delete_ (Many [keyB; keyA]) (Some (UserFn 0%nat)) ;;
          deliver (Decoded committed)) (dataset K R)).2
  = [Called 0%nat None [VResp committed]].
Proof.
  destruct (delete_completion (Many [keyB; keyA]) 0%nat (Decoded committed)
              (dataset K R) eq_refl eq_refl) as (_ & _ & Ht & _).
  exact Ht.
Defined.


Lemma createBucket_completion_witness :
  Storage.trace
    (Storage.deliver bucketNamed (Storage.Replied listing)
       (Storage.createBucket (Some (Storage.JStr "new-bucket"))
          (Storage.AFunction 0%nat) Storage.AUndefined storage).2).2
  = [Storage.Called 0%nat None
       [Storage.VCreated (Some (Storage.JStr "new-bucket")) listing]].
Proof.
  destruct (createBucket_completion bucketNamed (Storage.JStr "new-bucket")
              0%nat (Storage.Replied listing) storage eq_refl eq_refl)
    as (_ & Ht & _).
  exact Ht.
Defined.

Lemma getBuckets_completion_witness :
  ∃ nq,
    Storage.trace
      (Storage.deliver bucketNamed (Storage.Replied listing)
         (Storage.getBuckets (Storage.AObject 0%nat) (Storage.AFunction 0%nat)
            storage).2).2
    = [Storage.Called 0%nat None
         [Storage.VBuckets
            [(Some (Storage.JStr "albums"), {[ "id" := Storage.JStr "albums" ]});
             (Some (Storage.JStr "photos"), {[ "id" := Storage.JStr "photos" ]})];
          Storage.VObject nq]]
    ∧ nq !! "pageToken" = Some (Storage.JStr "t1")
    ∧ nq !! "maxResults" = Some (Storage.JNum 5)
    ∧ nq !! "project" = Some (Storage.JStr "proj").
Proof.
  destruct (getBuckets_completion bucketNamed 0%nat 0%nat listing storage
              eq_refl) as (nextQuery & _ & Ht & _ & Hn).
  destruct Hn as (nq & -> & Hp & Hk).
  exists nq. split; [exact Ht|]. split; [exact Hp|].
  split; rewrite Hk by done; reflexivity.
Defined.

Lemma getBuckets_next_page_witness :
  let nq : gmap string Storage.JsVal :=
    <["pageToken" := Storage.JStr "t1"]>
      (<["project" := Storage.JStr "proj"]>
         {[ "maxResults" := Storage.JNum 5 ]}) in
  let w2 : Storage.World (Bucket := option Storage.JsVal) :=
    Storage.mkWorld (Some (Storage.JStr "proj")) (<[1%nat := nq]> ∅) [] [] [] in
  Storage.qs <$>
    Storage.sent (Storage.getBuckets (Storage.AObject 1%nat)
                    (Storage.AFunction 0%nat) w2).2
  = [nq].
Proof.
  intros nq w2.
  rewrite (getBuckets_next_page {[ "maxResults" := Storage.JNum 5 ]}
             (Storage.JStr "t1") 1%nat 0%nat storage w2 eq_refl).
  - vm_compute. reflexivity.
  - vm_compute. reflexivity.
Defined.

Lemma served_content_is_pinned_witness :
  let st := App.mkState ∅ (<["./twitter-bootstrap//a.js" := "v1"]> ∅) in
  let st1 := (App.handler "/a.js" st).2 in
  (App.handler "/a.js"
     (App.steps [App.Write "./twitter-bootstrap//a.js" "v2";
                 App.Request "/b.js";
                 App.Remove "./twitter-bootstrap//a.js"] st1)).1
  = App.Sent "v1".
Proof.
  intros st st1.
  rewrite (served_content_is_pinned "/a.js" "v1" st st1
             [App.Write "./twitter-bootstrap//a.js" "v2";
              App.Request "/b.js";
              App.Remove "./twitter-bootstrap//a.js"]).
  - reflexivity.
  - vm_compute. reflexivity.
  - discriminate.
Defined.

Lemma empty_content_is_not_pinned_witness :
  let st := App.mkState ∅ onDisk in
  (App.handler "/empty.css"
     (App.step (App.Write (App.path +:+ "/empty.css") "a{}")
        (App.handler "/empty.css" st).2)).1
  = App.Sent "a{}".
Proof.
  intros st.
  apply (empty_content_is_not_pinned "/empty.css" "a{}" st
           (App.handler "/empty.css" st).2).
  vm_compute. reflexivity.
Defined.

Lemma missing_file_is_not_cached_witness :
  App.handler "/nope.js" (App.mkState ∅ onDisk)
  = (App.Thrown, App.mkState ∅ onDisk).
Proof.
  destruct (missing_file_is_not_cached "/nope.js" "x" (App.mkState ∅ onDisk))
    as [H _]; [reflexivity|reflexivity|].
  exact H.
Defined.

Lemma preloaded_pages_are_pinned_witness :
  ∃ st, App.startup onDisk = Some st
        ∧ App.handler "/index.html"
            (App.steps [App.Remove "./twitter-bootstrap/index.html"] st)
          = (App.Sent "<p/>",
             App.steps [App.Remove "./twitter-bootstrap/index.html"] st).
Proof.
  destruct (App.startup onDisk) as [st|] eqn:Hst; [|by vm_compute in Hst].
  exists st. split; [done|].
  destruct (preloaded_pages_are_pinned onDisk st
              [App.Remove "./twitter-bootstrap/index.html"] Hst)
    as (t & i & _ & Hi & _ & Hpin).
  vm_compute in Hi. injection Hi as <-. by apply Hpin.
Defined.

Lemma allocateIds_edges_witness :
  (deliver (Decoded committed) (allocateIds keyA 0 None (dataset K R)).2).1
  = Throw TypeError.
Proof.
  destruct (allocateIds_edges (W := wire) (C := codec) keyA 0
              (Decoded committed) (dataset K R) eq_refl eq_refl)
    as (_ & H & _).
  exact H.
Defined.

End MoreRuns.
